(** * Daily earnings tracker: the in-memory ledger, its form, sort and pagination

    Shallow embedding of [daily_earning/app/(tabs)/index.tsx] (the extended
    variant, with sorting and pagination) and of the basic variant that
    shares its form and its reconciliation rule.

    Conventions of the embedding.
    - A JavaScript array is a [list]; index [i] of the array is [l !! i].
    - A JavaScript number that holds an amount is a binary64 [float] (the
      kernel's primitive floats, specified by [SpecFloat]); a number that
      holds a list length, a page or a page size is an integer of [Z]: such
      values stay below 2^32, where the arithmetic of doubles is exact.
    - A JavaScript string is a [string], read as its sequence of code units
      (code units below 256 only); strict equality [===] of strings is
      Leibniz equality.
    - [useState] cells are the fields of a record; a handler is a function
      from the record to the next record; a [useEffect] is applied after the
      handler when one of its dependencies changed.
    - Platform services that the source calls but does not define
      ([parseFloat], [Number::toString], [String.prototype.localeCompare],
      the clock) are section variables or inputs of the step function. *)

From Stdlib Require Import ZArith QArith Qround Lia Ascii Floats.
From stdpp Require Import base decidable list strings pretty numbers sorting gmap.

Open Scope Z_scope.

(** * Part I: the embedding

    ** Binary64 numbers

    [SpecFloat] specifies the primitive operations bit by bit.  To reason
    about the comparators of the source ([na - nb], [parsed <= 0]) every
    number that is not NaN is given an integer rank: its exact value scaled
    by [2^-emin], the infinities placed beyond every finite value. *)

Definition spec_rank (prec emax : Z) (x : spec_float) : Z :=
  match x with
  | S754_zero _ | S754_nan => 0
  | S754_infinity s => cond_Zopp s (2 ^ (emax - SpecFloat.emin prec emax))
  | S754_finite s m e => cond_Zopp s (Z.pos m * 2 ^ (e - SpecFloat.emin prec emax))
  end.

Definition is_nan_sf (x : spec_float) : bool :=
  match x with S754_nan => true | _ => false end.

(** A result that is finite and not zero, or infinite, of sign [s]. *)
Definition signed_nonzero (s : bool) (x : spec_float) : Prop :=
  match x with
  | S754_finite s' _ _ | S754_infinity s' => s' = s
  | _ => False
  end.

#[global] Instance float_eq_dec : EqDecision float.
Proof.
  intros x y. destruct (Leibniz.eqb x y) eqn:E.
  - left. apply Leibniz.eqb_spec. exact E.
  - right. intros H. apply Leibniz.eqb_spec in H. congruence.
Defined.

Module Number.

(** [Number.isNaN]. *)
Definition isNaN (x : float) : bool := PrimFloat.is_nan x.

(** ToBoolean of a number: [NaN], [+0] and [-0] are falsy. *)
Definition truthy (x : float) : bool :=
  negb (PrimFloat.is_nan x || PrimFloat.is_zero x).

(** [x || y] on numbers. *)
Definition or (x y : float) : float := if truthy x then x else y.

(** [Number(x)] applied to a number. *)
Definition ToNumber (x : float) : float := x.

Definition rank (x : float) : Z := spec_rank prec emax (Prim2SF x).

(** The sign that [Array.prototype.sort] reads off a comparator's result:
    negative, positive, or neither ([+0], [-0] and [NaN]). *)
Definition sgn (v : float) : comparison :=
  if (v <? 0)%float then Lt else if (0 <? v)%float then Gt else Eq.

(** The integer [n] for which [n / 10^f] is closest to [m * 2^e]; the
    larger [n] when two are as close. *)
Definition nearest_scaled (m : positive) (e : Z) (f : nat) : Z :=
  let scaled := Z.pos m * 10 ^ Z.of_nat f in
  if 0 <=? e then scaled * 2 ^ e
  else (2 * scaled + 2 ^ (- e)) / 2 ^ (- e + 1).

Definition zeros (n : nat) : string :=
  String.string_of_list_ascii (replicate n "0"%char).

(** The decimal digits of [n] with a point before the last [f] of them. *)
Definition fixed_digits (n : Z) (f : nat) : string :=
  let m := pretty n in
  match f with
  | O => m
  | _ =>
    let k := String.length m in
    let m := if decide (k ≤ f)%nat then zeros (f + 1 - k) +:+ m else m in
    let k := String.length m in
    String.substring 0 (k - f) m +:+ "." +:+ String.substring (k - f) f m
  end.

(** [Number.prototype.toFixed].  From [10^21] on the result is that of
    [Number::toString], which is the parameter [toString]. *)
Definition toFixed (toString : float -> string) (x : float) (fractionDigits : nat) : string :=
  match Prim2SF x with
  | S754_nan => "NaN"
  | S754_infinity s => if s then "-Infinity" else "Infinity"
  | S754_zero _ => fixed_digits 0 fractionDigits
  | S754_finite s m e =>
    let sign := if s then "-" else "" in
    if (0 <=? e) && (10 ^ 21 <=? Z.pos m * 2 ^ e)
    then sign +:+ toString (PrimFloat.abs x)
    else sign +:+ fixed_digits (nearest_scaled m e fractionDigits) fractionDigits
  end.

End Number.

(** ** Strings *)

Module Str.

(** WhiteSpace and LineTerminator code units below 256. *)
Definition is_white_space (c : ascii) : bool :=
  let n := N_of_ascii c in
  ((9 <=? n) && (n <=? 13) || (n =? 32) || (n =? 160))%N.

Fixpoint trimStart (s : list ascii) : list ascii :=
  match s with
  | c :: s' => if is_white_space c then trimStart s' else s
  | [] => []
  end.

Definition trimEnd (s : list ascii) : list ascii := rev (trimStart (rev s)).

(** [String.prototype.trim]. *)
Definition trim (s : string) : string :=
  String.string_of_list_ascii (trimEnd (trimStart (String.list_ascii_of_string s))).

(** [String(n)] for an integer [n] below [10^21] in magnitude. *)
Definition ofInteger (n : Z) : string := pretty n.

End Str.

(** ** A decimal reader

    The theorems hold for every [parseFloat : string -> float].  This reader
    of StrDecimalLiteral prefixes, correctly rounded, is the instance the
    examples run. *)

Module DecimalReader.

Definition is_digit (c : ascii) : bool :=
  let n := N_of_ascii c in ((48 <=? n) && (n <=? 57))%N.

Definition digit (c : ascii) : Z := Z.of_N (N_of_ascii c) - 48.

(** Reads the longest run of decimal digits: its value continuing [acc],
    its length, and the rest of the input. *)
Fixpoint digits (s : list ascii) (acc : Z) (n : Z) : Z * Z * list ascii :=
  match s with
  | c :: s' => if is_digit c then digits s' (10 * acc + digit c) (n + 1) else (acc, n, s)
  | [] => (acc, n, [])
  end.

Definition sign (s : list ascii) : bool * list ascii :=
  match s with
  | "-"%char :: s' => (true, s')
  | "+"%char :: s' => (false, s')
  | _ => (false, s)
  end.

(** ExponentPart, read only when it is complete. *)
Definition exponent (s : list ascii) : Z :=
  match s with
  | c :: s' =>
    if (N_of_ascii c =? 101)%N || (N_of_ascii c =? 69)%N then
      let '(neg, s'') := sign s' in
      let '(v, n, _) := digits s'' 0 0 in
      if n =? 0 then 0 else if neg then - v else v
    else 0
  | [] => 0
  end.

(** The double nearest to [m * 10^e], ties to even: the quotient is taken
    with 64 bits or more and a sticky bit for the remainder. *)
Definition round_decimal (m e : Z) : spec_float :=
  if 0 <=? e then binary_normalize prec emax (m * 10 ^ e) 0 false
  else
    let den := 10 ^ (- e) in
    let s := 64 + Z.log2 den + 1 in
    let '(q, r) := Z.div_eucl (m * 2 ^ s) den in
    let sticky := if r =? 0 then 0 else 1 in
    binary_normalize prec emax (2 * q + sticky) (- s - 1) false.

Definition starts_with (p s : list ascii) : bool :=
  bool_decide (take (length p) s = p).

Definition parseFloat (input : string) : float :=
  let s := Str.trimStart (String.list_ascii_of_string input) in
  let '(neg, s) := sign s in
  let apply_sign (x : float) := if neg then (- x)%float else x in
  if starts_with (String.list_ascii_of_string "Infinity") s then apply_sign infinity
  else
    let '(ip, n_ip, s) := digits s 0 0 in
    let '(m, n_fp, s) :=
      match s with
      | "."%char :: s' => digits s' ip 0
      | _ => (ip, 0, s)
      end in
    if (n_ip =? 0) && (n_fp =? 0) then nan
    else apply_sign (SF2Prim (round_decimal m (exponent s - n_fp))).

(** A stand-in for [Number::toString], exact on integers below [2^53]. *)
Definition toString (x : float) : string :=
  match Prim2SF x with
  | S754_nan => "NaN"
  | S754_infinity s => if s then "-Infinity" else "Infinity"
  | S754_zero _ => "0"
  | S754_finite s m e =>
    (if s then "-" else "") +:+
    (if 0 <=? e then pretty (Z.pos m * 2 ^ e) else pretty (Z.pos m / 2 ^ (- e)))
  end.

(** Code-unit order, the collation of strings of digits and hyphens. *)
Definition localeCompare (a b : string) : float :=
  match String.compare a b with
  | Lt => (-1)%float
  | Eq => 0%float
  | Gt => 1%float
  end.

End DecimalReader.

(** ** Arrays *)

Section Arrays.
Context {A : Type}.

(** [Array.prototype.slice(start, end)], negative indices counted from
    the end. *)
Definition slice (start end_ : Z) (l : list A) : list A :=
  let len := Z.of_nat (length l) in
  let k := if start <? 0 then Z.max (len + start) 0 else Z.min start len in
  let final := if end_ <? 0 then Z.max (len + end_) 0 else Z.min end_ len in
  take (Z.to_nat (final - k)) (drop (Z.to_nat k) l).

(** [Array.prototype.sort(comparefn)] is a stable sort: an element moves
    behind another one only when [comparefn] puts it after (a positive
    result; [NaN] counts as [+0]).  The model inserts the elements from the
    right. *)
Variable comparefn : A -> A -> float.

Fixpoint sort_insert (x : A) (l : list A) : list A :=
  match l with
  | [] => [x]
  | y :: l' => if (0 <? comparefn x y)%float then y :: sort_insert x l' else x :: l
  end.

Definition Array_sort (l : list A) : list A := foldr sort_insert [] l.

End Arrays.

(** What the language asks of a comparator for the sorted order to be
    defined: the signs it returns are those of a total preorder. *)
Record ConsistentComparator {A : Type} (comparefn : A -> A -> float) : Prop := {
  cc_antisym : forall a b,
    Number.sgn (comparefn a b) = CompOpp (Number.sgn (comparefn b a));
  cc_trans : forall a b c,
    Number.sgn (comparefn a b) <> Gt -> Number.sgn (comparefn b c) <> Gt ->
    Number.sgn (comparefn a c) <> Gt;
}.

(** [x] does not sort after [y]. *)
Definition cmp_le {A : Type} (comparefn : A -> A -> float) (x y : A) : Prop :=
  Number.sgn (comparefn x y) <> Gt.

(** [x] and [y] compare equal. *)
Definition cmp_eq {A : Type} (comparefn : A -> A -> float) (x y : A) : Prop :=
  Number.sgn (comparefn x y) = Eq.

#[global] Instance cmp_eq_dec {A : Type} (comparefn : A -> A -> float) (x y : A) :
  Decision (cmp_eq comparefn x y).
Proof. unfold cmp_eq. apply _. Defined.

#[global] Instance cmp_le_dec {A : Type} (comparefn : A -> A -> float) (x y : A) :
  Decision (cmp_le comparefn x y).
Proof. unfold cmp_le. apply _. Defined.

(** [Math.ceil] of a quotient of integers. *)
Definition Math_ceil (q : Q) : Z := Qceiling q.

(** ** The data model *)

Record Earning : Type := mkEarning {
  id : string;
  amount : float;
  date : string;
  note : string;
}.

#[global] Instance Earning_eq_dec : EqDecision Earning.
Proof. solve_decision. Defined.

Definition ids (l : list Earning) : list string := id <$> l.

(** ** Array objects

    [earnings] is an array object held by reference; [[...earnings]] makes a
    new object and [arr.sort] writes into the object it is called on. *)

Abbreviation Store := (gmap positive (list Earning)).

Definition spread (src : positive) (σ : Store) : positive * Store :=
  let r := fresh (dom σ) in
  (r, <[r := default [] (σ !! src)]> σ).

Definition sort_in_place (comparefn : Earning -> Earning -> float) (r : positive)
    (σ : Store) : Store :=
  alter (Array_sort comparefn) r σ.

(** ** DailyEarningsInput: the entry form *)

(** The three [useState] cells of the form: the texts of the inputs. *)
Record FormState : Type := mkForm {
  f_amount : string;
  f_date : string;
  f_note : string;
}.

(** [Alert.alert(title, message, buttons)]; [destructive] is the id that the
    destructive button passes to [onDelete], when the alert has one. *)
Record Alert : Type := mkAlert {
  title : string;
  message : string;
  destructive : option string;
}.

(** What a handler of the form calls: the alert, or the owner's [onAdd]. *)
Inductive Call : Type :=
  | Alert_alert (a : Alert)
  | onAdd (payload : Earning).

(** The readings of the clock during one event: [Date.now()] and
    [new Date().toISOString().slice(0, 10)]. *)
Record Clock : Type := mkClock {
  now : Z;
  today : string;
}.

Section DailyEarningsInput.
Variable parseFloat : string -> float.
Variable toString : float -> string.

Definition reset (clock : Clock) : FormState :=
  {| f_amount := ""; f_date := today clock; f_note := "" |}.

Definition invalid_amount_alert : Alert :=
  {| title := "Invalid amount";
     message := "Please enter a positive number for amount";
     destructive := None |}.

(** [handleAddOrSave]: the next texts of the form and the calls made. *)
Definition handleAddOrSave (clock : Clock) (editing : option Earning) (f : FormState)
    : FormState * list Call :=
  let parsed := parseFloat (f_amount f) in
  if Number.isNaN parsed || (parsed <=? 0)%float then
    (f, [Alert_alert invalid_amount_alert])
  else
    let payload :=
      {| id := match editing with
               | Some e => id e
               | None => Str.ofInteger (now clock)
               end;
         amount := parsed;
         date := f_date f;
         note := Str.trim (f_note f) |} in
    (reset clock, [onAdd payload]).

(** The effect on [[editing]]: prefill from the record, or reset. *)
Definition editing_effect (clock : Clock) (editing : option Earning) : FormState :=
  match editing with
  | Some e => {| f_amount := toString (amount e); f_date := date e; f_note := note e |}
  | None => reset clock
  end.

End DailyEarningsInput.

(** ** EarningsList: the ledger view *)

Section EarningsList.
Variable toString : float -> string.

(** [earnings.reduce((s, e) => s + Number(e.amount || 0), 0)]. *)
Definition total (earnings : list Earning) : float :=
  fold_left (fun s e => (s + Number.ToNumber (Number.or (amount e) 0))%float) earnings 0%float.

(** The text after [Total: ] and the currency sign: [total.toFixed(2)]. *)
Definition totalText (earnings : list Earning) : string :=
  Number.toFixed toString (total earnings) 2.

(** [confirmDelete(id)]. *)
Definition confirmDelete (k : string) : Alert :=
  {| title := "Delete"; message := "Delete this earning?"; destructive := Some k |}.

End EarningsList.

(** The sum of the amounts of a sequence, from the left, as
    [calculateTotal] of the calculator screen takes it:
    [earnings.reduce((acc, item) => acc + item.amount, 0)]. *)
Definition sum_amounts (earnings : list Earning) : float :=
  fold_left (fun s e => (s + amount e)%float) earnings 0%float.

(** ** The ledger owner: reconciliation and deletion *)

(** The updater passed to [setEarnings] in [handleAdd]:
    [prev.some(p => p.id === item.id)] decides between [prev.map(...)] and
    [[item, ...prev]]. *)
Definition handleAdd_update (item : Earning) (prev : list Earning) : list Earning :=
  let exists_ := existsb (fun p => bool_decide (id p = id item)) prev in
  if exists_
  then (fun p => if bool_decide (id p = id item) then item else p) <$> prev
  else item :: prev.

(** The updater passed to [setEarnings] in [handleDelete]:
    [p.filter(x => x.id !== id)]. *)
Definition handleDelete_update (k : string) (p : list Earning) : list Earning :=
  filter (fun x => id x ≠ k) p.

(** The ledger under its two operations, from the empty ledger. *)
Inductive LedgerOp : Type :=
  | Reconcile (item : Earning)
  | Delete (k : string).

Definition apply_op (ledger : list Earning) (op : LedgerOp) : list Earning :=
  match op with
  | Reconcile item => handleAdd_update item ledger
  | Delete k => handleDelete_update k ledger
  end.

Definition run_ops (ops : list LedgerOp) : list Earning := fold_left apply_op ops [].

(** ** App with pagination and sorting *)

Inductive SortBy : Type := by_date | by_amount.
Inductive SortDir : Type := asc | desc.

#[global] Instance SortBy_eq_dec : EqDecision SortBy.
Proof. solve_decision. Defined.
#[global] Instance SortDir_eq_dec : EqDecision SortDir.
Proof. solve_decision. Defined.

Record AppState : Type := mkApp {
  earnings : list Earning;
  editing : option Earning;
  page : Z;
  pageSize : Z;
  sortBy : SortBy;
  sortDir : SortDir;
}.

Definition setEarnings (f : list Earning -> list Earning) (st : AppState) : AppState :=
  {| earnings := f (earnings st); editing := editing st; page := page st;
     pageSize := pageSize st; sortBy := sortBy st; sortDir := sortDir st |}.
Definition setEditing (e : option Earning) (st : AppState) : AppState :=
  {| earnings := earnings st; editing := e; page := page st;
     pageSize := pageSize st; sortBy := sortBy st; sortDir := sortDir st |}.
Definition setPage (f : Z -> Z) (st : AppState) : AppState :=
  {| earnings := earnings st; editing := editing st; page := f (page st);
     pageSize := pageSize st; sortBy := sortBy st; sortDir := sortDir st |}.
Definition setPageSize (size : Z) (st : AppState) : AppState :=
  {| earnings := earnings st; editing := editing st; page := page st;
     pageSize := size; sortBy := sortBy st; sortDir := sortDir st |}.
Definition setSortBy (by_ : SortBy) (st : AppState) : AppState :=
  {| earnings := earnings st; editing := editing st; page := page st;
     pageSize := pageSize st; sortBy := by_; sortDir := sortDir st |}.
Definition setSortDir (f : SortDir -> SortDir) (st : AppState) : AppState :=
  {| earnings := earnings st; editing := editing st; page := page st;
     pageSize := pageSize st; sortBy := sortBy st; sortDir := f (sortDir st) |}.

(** The initial values of the [useState] cells. *)
Definition App_init : AppState :=
  {| earnings := []; editing := None; page := 1; pageSize := 5;
     sortBy := by_date; sortDir := desc |}.

Definition handleAdd (item : Earning) (st : AppState) : AppState :=
  setEditing None (setEarnings (handleAdd_update item) st).

Definition handleDelete (k : string) (st : AppState) : AppState :=
  setEarnings (handleDelete_update k) st.

Definition handleEdit (item : Earning) (st : AppState) : AppState :=
  setEditing (Some item) st.

Definition changePageSize (size : Z) (st : AppState) : AppState :=
  setPage (fun _ => 1) (setPageSize size st).

Definition toggleSort (by_ : SortBy) (st : AppState) : AppState :=
  if decide (sortBy st = by_) then
    setSortDir (fun d => if decide (d = asc) then desc else asc) st
  else
    setSortDir (fun _ => desc) (setSortBy by_ st).

(** The buttons of the page-size selector. *)
Inductive PageSizeButton : Type := size5 | size10 | size20.

Definition button_size (b : PageSizeButton) : Z :=
  match b with size5 => 5 | size10 => 10 | size20 => 20 end.

Section App.
Variable localeCompare : string -> string -> float.

(** The comparator of the [date] branch of [sorted]. *)
Definition compareDate (dir : SortDir) (a b : Earning) : float :=
  if decide (date a = date b) then 0%float
  else match dir with
       | asc => localeCompare (date a) (date b)
       | desc => localeCompare (date b) (date a)
       end.

(** The comparator of the [amount] branch of [sorted]. *)
Definition compareAmount (dir : SortDir) (a b : Earning) : float :=
  let na := Number.ToNumber (Number.or (amount a) 0) in
  let nb := Number.ToNumber (Number.or (amount b) 0) in
  match dir with
  | asc => (na - nb)%float
  | desc => (nb - na)%float
  end.

Definition comparefn (by_ : SortBy) (dir : SortDir) : Earning -> Earning -> float :=
  match by_ with
  | by_date => compareDate dir
  | by_amount => compareAmount dir
  end.

(** The [sorted] memo as a function of the ledger's value. *)
Definition sorted_of (l : list Earning) (by_ : SortBy) (dir : SortDir) : list Earning :=
  let arr := l in
  match by_ with
  | by_date => Array_sort (compareDate dir) arr
  | by_amount => Array_sort (compareAmount dir) arr
  end.

(** The [sorted] memo on array objects: [const arr = [...earnings]], then
    [arr.sort(...)], then [return arr]. *)
Definition sorted_memo (earnings_ref : positive) (by_ : SortBy) (dir : SortDir) (σ : Store)
    : positive * Store :=
  let '(arr, σ) := spread earnings_ref σ in
  let σ :=
    match by_ with
    | by_date => sort_in_place (compareDate dir) arr σ
    | by_amount => sort_in_place (compareAmount dir) arr σ
    end in
  (arr, σ).

Definition sorted (st : AppState) : list Earning :=
  sorted_of (earnings st) (sortBy st) (sortDir st).

(** [Math.max(1, Math.ceil(sorted.length / pageSize))], for a page size
    that is not zero (the page sizes are 5, 10 and 20). *)
Definition totalPages_of (len size : Z) : Z :=
  Z.max 1 (Math_ceil (inject_Z len / inject_Z size)).

Definition totalPages (st : AppState) : Z :=
  totalPages_of (Z.of_nat (length (sorted st))) (pageSize st).

(** [Math.min(totalPages, Math.max(1, page))]. *)
Definition currentPage (st : AppState) : Z :=
  Z.min (totalPages st) (Z.max 1 (page st)).

Definition paginated (st : AppState) : list Earning :=
  let start := (currentPage st - 1) * pageSize st in
  slice start (start + pageSize st) (sorted st).

Definition nextPage (st : AppState) : AppState :=
  setPage (fun p => Z.min (totalPages st) (p + 1)) st.

Definition prevPage (st : AppState) : AppState :=
  setPage (fun p => Z.max 1 (p - 1)) st.

(** The dependencies of the effect that resets the page. *)
Definition page_deps (st : AppState) : nat * Z * SortBy * SortDir :=
  (length (earnings st), pageSize st, sortBy st, sortDir st).

(** [useEffect(() => setPage(1), [earnings.length, pageSize, sortBy,
    sortDir])], after a render that follows the state [prev]. *)
Definition page_effect (prev next : AppState) : AppState :=
  if decide (page_deps prev = page_deps next) then next
  else setPage (fun _ => 1) next.

Variable parseFloat : string -> float.
Variable toString : float -> string.

(** The whole screen: the owner's cells and the form's. *)
Record UI : Type := mkUI {
  app : AppState;
  form : FormState;
}.

Definition UI_init (clock : Clock) : UI :=
  {| app := App_init; form := reset clock |}.

(** What the user can do.  The events are not restricted to the rows and
    buttons on display: a session may press Edit on any record and confirm
    the deletion of any id, so what holds of every screen below holds of
    those that a user reaches. *)
Inductive Event : Type :=
  | ChangeAmount (text : string)
  | ChangeDate (text : string)
  | ChangeNote (text : string)
  | PressAddOrSave
  | PressCancel
  | PressEdit (item : Earning)
  | PressDelete (k : string)
  | ConfirmDelete (k : string)
  | PressSort (by_ : SortBy)
  | PressPageSize (b : PageSizeButton)
  | PressPrev
  | PressNext.

Definition run_call (c : Call) (st : AppState) : AppState :=
  match c with
  | Alert_alert _ => st
  | onAdd payload => handleAdd payload st
  end.

Definition alert_of (c : Call) : list Alert :=
  match c with
  | Alert_alert a => [a]
  | onAdd _ => []
  end.

(** The handler of an event: next cells and alerts shown, before the
    effects of the render that follows. *)
Definition handle (clock : Clock) (ev : Event) (ui : UI) : UI * list Alert :=
  let st := app ui in
  let f := form ui in
  match ev with
  | ChangeAmount s =>
      ({| app := st; form := {| f_amount := s; f_date := f_date f; f_note := f_note f |} |}, [])
  | ChangeDate s =>
      ({| app := st; form := {| f_amount := f_amount f; f_date := s; f_note := f_note f |} |}, [])
  | ChangeNote s =>
      ({| app := st; form := {| f_amount := f_amount f; f_date := f_date f; f_note := s |} |}, [])
  | PressAddOrSave =>
      let '(f', calls) := handleAddOrSave parseFloat clock (editing st) f in
      ({| app := foldl (fun s c => run_call c s) st calls; form := f' |},
       calls ≫= alert_of)
  | PressCancel =>
      ({| app := setEditing None st; form := reset clock |}, [])
  | PressEdit item => ({| app := handleEdit item st; form := f |}, [])
  | PressDelete k => (ui, [confirmDelete k])
  | ConfirmDelete k => ({| app := handleDelete k st; form := f |}, [])
  | PressSort by_ => ({| app := toggleSort by_ st; form := f |}, [])
  | PressPageSize b => ({| app := changePageSize (button_size b) st; form := f |}, [])
  | PressPrev => ({| app := prevPage st; form := f |}, [])
  | PressNext => ({| app := nextPage st; form := f |}, [])
  end.

(** The effects of the render after a handler: the form's effect on
    [[editing]] and the owner's effect on the page.  A dependency has changed
    when its value has. *)
Definition effects (clock : Clock) (prev next : UI) : UI :=
  {| app := page_effect (app prev) (app next);
     form := if decide (editing (app prev) = editing (app next)) then form next
             else editing_effect toString clock (editing (app next)) |}.

Definition step (clock : Clock) (ev : Event) (ui : UI) : UI :=
  effects clock ui (fst (handle clock ev ui)).

(** The screens that a session can show. *)
Inductive reachable : UI -> Prop :=
  | reachable_init clock : reachable (UI_init clock)
  | reachable_step clock ev ui : reachable ui -> reachable (step clock ev ui).

Definition run (events : list (Clock * Event)) (ui : UI) : UI :=
  foldl (fun u '(clock, ev) => step clock ev u) ui events.

(** What [EarningsList] shows in its header for [App]. *)
Definition App_totalText (st : AppState) : string :=
  totalText toString (paginated st).

End App.

(** ** What the sorted view is ordered by *)

(** The key of the [amount] branch: [Number(e.amount || 0)]. *)
Definition amount_key (e : Earning) : float :=
  Number.ToNumber (Number.or (amount e) 0).

Section Ordering.
Variable localeCompare : string -> string -> float.

(** [d1] is [d2] or collates before it. *)
Definition collates_le (d1 d2 : string) : Prop :=
  d1 = d2 \/ Number.sgn (localeCompare d1 d2) <> Gt.

(** [a] may stand before [b] under the active key and direction. *)
Definition ordered (by_ : SortBy) (dir : SortDir) (a b : Earning) : Prop :=
  match by_, dir with
  | by_date, asc => collates_le (date a) (date b)
  | by_date, desc => collates_le (date b) (date a)
  | by_amount, asc => (amount_key a <=? amount_key b)%float = true
  | by_amount, desc => (amount_key b <=? amount_key a)%float = true
  end.

(** [a] and [b] compare equal on the active key. *)
Definition same_key (by_ : SortBy) (a b : Earning) : Prop :=
  match by_ with
  | by_date => collates_le (date a) (date b) /\ collates_le (date b) (date a)
  | by_amount => (amount_key a =? amount_key b)%float = true
  end.

#[global] Instance collates_le_dec d1 d2 : Decision (collates_le d1 d2).
Proof. unfold collates_le. apply _. Defined.

#[global] Instance same_key_dec by_ a b : Decision (same_key by_ a b).
Proof. destruct by_; simpl; apply _. Defined.

End Ordering.

(** ** What holds of every screen of a session *)

Definition page_size_ok (size : Z) : Prop := size = 5 \/ size = 10 \/ size = 20.

Definition positive_amounts (l : list Earning) : Prop :=
  Forall (fun e => (0 <? amount e)%float = true) l.

(** One event changes the ledger by at most one reconciliation of a record
    with a positive amount or one deletion. *)
Definition ledger_step (l l' : list Earning) : Prop :=
  l' = l \/
  (exists item, (0 <? amount item)%float = true /\ l' = handleAdd_update item l) \/
  (exists k, l' = handleDelete_update k l).

(** ** The basic variant: no sorting controls, no pages *)

Module Basic.

Record AppState : Type := mkApp {
  earnings : list Earning;
  editing : option Earning;
}.

Definition App_init : AppState := {| earnings := []; editing := None |}.

Definition handleAdd (item : Earning) (st : AppState) : AppState :=
  {| earnings := handleAdd_update item (earnings st); editing := None |}.

(** [handleDelete] asks first. *)
Definition handleDelete (k : string) : Alert := confirmDelete k.

(** The destructive button of that alert. *)
Definition handleDelete_confirmed (k : string) (st : AppState) : AppState :=
  {| earnings := handleDelete_update k (earnings st); editing := editing st |}.

Definition handleEdit (item : Earning) (st : AppState) : AppState :=
  {| earnings := earnings st; editing := Some item |}.

Definition handleCancelEdit (st : AppState) : AppState :=
  {| earnings := earnings st; editing := None |}.

Section View.
Variable localeCompare : string -> string -> float.
Variable toString : float -> string.

(** The rows: [[...earnings].sort((a, b) => b.date.localeCompare(a.date))]. *)
Definition rows (st : AppState) : list Earning :=
  Array_sort (fun a b => localeCompare (date b) (date a)) (earnings st).

(** The header: [EarningsList] is given the whole ledger. *)
Definition App_totalText (st : AppState) : string :=
  totalText toString (earnings st).
End View.

End Basic.


(** ** A session to run

    The instances of the platform services and the events of the scenarios
    that the examples and the counterexamples evaluate. *)

Module Demo.

Definition clock (n : Z) : Clock := {| now := n; today := "2024-01-01" |}.

Definition step : Clock -> Event -> UI -> UI :=
  step DecimalReader.localeCompare DecimalReader.parseFloat DecimalReader.toString.

Definition run : list (Clock * Event) -> UI -> UI :=
  run DecimalReader.localeCompare DecimalReader.parseFloat DecimalReader.toString.

Definition totalText (ui : UI) : string :=
  App_totalText DecimalReader.localeCompare DecimalReader.toString (app ui).

Definition rows (ui : UI) : list Earning :=
  paginated DecimalReader.localeCompare (app ui).

(** Typing an amount and a date, then pressing Add, at clock reading [n]. *)
Definition add_entry (n : Z) (amountText dateText : string) : list (Clock * Event) :=
  [(clock n, ChangeAmount amountText); (clock n, ChangeDate dateText);
   (clock n, PressAddOrSave)].

Definition init : UI := UI_init (clock 0).

(** Two entries, as in the first scenario of the specification. *)
Definition two_entries : UI :=
  run (add_entry 1 "1200" "2024-01-05" ++ add_entry 2 "850" "2024-01-06") init.

(** Six entries of amount 1 on one day. *)
Definition six_entries : UI :=
  run (add_entry 1 "1" "2024-01-05" ++ add_entry 2 "1" "2024-01-05" ++
       add_entry 3 "1" "2024-01-05" ++ add_entry 4 "1" "2024-01-05" ++
       add_entry 5 "1" "2024-01-05" ++ add_entry 6 "1" "2024-01-05") init.

(** Twelve entries on twelve days. *)
Definition twelve_entries : UI :=
  run (add_entry 1 "10" "2024-01-01" ++ add_entry 2 "10" "2024-01-02" ++
       add_entry 3 "10" "2024-01-03" ++ add_entry 4 "10" "2024-01-04" ++
       add_entry 5 "10" "2024-01-05" ++ add_entry 6 "10" "2024-01-06" ++
       add_entry 7 "10" "2024-01-07" ++ add_entry 8 "10" "2024-01-08" ++
       add_entry 9 "10" "2024-01-09" ++ add_entry 10 "10" "2024-01-10" ++
       add_entry 11 "10" "2024-01-11" ++ add_entry 12 "10" "2024-01-12") init.

End Demo.

(** ** What the screen offers, and sessions under a running clock *)


Section Offered.
Variable localeCompare : string -> string -> float.
Variable parseFloat : string -> float.
Variable toString : float -> string.

(** The events that the rendered screen has a control for: Edit and Delete
    on the rows on display, Cancel in edit mode. *)
Definition offered (ui : UI) (ev : Event) : Prop :=
  match ev with
  | PressEdit item => item ∈ paginated localeCompare (app ui)
  | PressDelete k | ConfirmDelete k => k ∈ ids (paginated localeCompare (app ui))
  | PressCancel => editing (app ui) <> None
  | _ => True
  end.

(** The least reading that the clock may show at the next submit. *)
Definition next_bound (t : Z) (clock : Clock) (ev : Event) : Z :=
  match ev with
  | PressAddOrSave => now clock + 1
  | _ => t
  end.

(** Sessions of offered events in which the clock reads more at each submit
    than at the submit before; [t] bounds the next submit from below. *)
Inductive timed_session : Z -> UI -> Prop :=
  | timed_init t clock : timed_session t (UI_init clock)
  | timed_step t clock ev ui :
      timed_session t ui ->
      offered ui ev ->
      (ev = PressAddOrSave -> t <= now clock) ->
      timed_session (next_bound t clock ev)
        (step localeCompare parseFloat toString clock ev ui).

End Offered.

(** Every id of the ledger, and the id under edit, is the text of a clock
    reading below [t]. *)
Definition ids_before (t : Z) (st : AppState) : Prop :=
  (forall k, k ∈ ids (earnings st) -> exists n, n < t /\ k = Str.ofInteger n) /\
  (forall r, editing st = Some r -> exists n, n < t /\ id r = Str.ofInteger n).

(** ** ShowTotalButton: the calculator screen *)

Module ShowTotalButton.

(** The cells [[show]] and [[total]]. *)
Record State : Type := mkState {
  show : bool;
  total : float;
}.

Definition init : State := {| show := false; total := 0 |}.

(** [calculateTotal]: [setTotal(sum)] and [setShow(true)]. *)
Definition calculateTotal (earnings : list Earning) (st : State) : State :=
  {| show := true; total := sum_amounts earnings |}.

(** The text after [Total: ] and the currency sign, when it is rendered. *)
Definition display (toString : float -> string) (st : State) : option string :=
  if show st then Some (Number.toFixed toString (total st) 2) else None.

End ShowTotalButton.

(** ** The screen of the basic variant *)

Module BasicScreen.

Record UI : Type := mkUI {
  app : Basic.AppState;
  form : FormState;
}.

(** The basic variant has no sort, page-size, Prev or Next button. *)
Inductive Event : Type :=
  | ChangeAmount (text : string)
  | ChangeDate (text : string)
  | ChangeNote (text : string)
  | PressAddOrSave
  | PressCancel
  | PressEdit (item : Earning)
  | PressDelete (k : string)
  | ConfirmDelete (k : string).

Section Screen.
Variable parseFloat : string -> float.
Variable toString : float -> string.

Definition UI_init (clock : Clock) : UI :=
  {| app := Basic.App_init; form := reset clock |}.

Definition run_call (c : Call) (st : Basic.AppState) : Basic.AppState :=
  match c with
  | Alert_alert _ => st
  | onAdd payload => Basic.handleAdd payload st
  end.

Definition handle (clock : Clock) (ev : Event) (ui : UI) : UI * list Alert :=
  let st := app ui in
  let f := form ui in
  match ev with
  | ChangeAmount s =>
      ({| app := st; form := {| f_amount := s; f_date := f_date f; f_note := f_note f |} |}, [])
  | ChangeDate s =>
      ({| app := st; form := {| f_amount := f_amount f; f_date := s; f_note := f_note f |} |}, [])
  | ChangeNote s =>
      ({| app := st; form := {| f_amount := f_amount f; f_date := f_date f; f_note := s |} |}, [])
  | PressAddOrSave =>
      let '(f', calls) := handleAddOrSave parseFloat clock (Basic.editing st) f in
      ({| app := foldl (fun s c => run_call c s) st calls; form := f' |},
       calls ≫= alert_of)
  | PressCancel =>
      ({| app := Basic.handleCancelEdit st; form := reset clock |}, [])
  | PressEdit item => ({| app := Basic.handleEdit item st; form := f |}, [])
  | PressDelete k => (ui, [Basic.handleDelete k])
  | ConfirmDelete k => ({| app := Basic.handleDelete_confirmed k st; form := f |}, [])
  end.

(** The one effect of the basic screen: the form's, on [[editing]]. *)
Definition effects (clock : Clock) (prev next : UI) : UI :=
  {| app := app next;
     form := if decide (Basic.editing (app prev) = Basic.editing (app next)) then form next
             else editing_effect toString clock (Basic.editing (app next)) |}.

Definition step (clock : Clock) (ev : Event) (ui : UI) : UI :=
  effects clock ui (fst (handle clock ev ui)).

End Screen.

End BasicScreen.

(** What the basic screen has of an extended screen: the ledger, the
    record being edited and the form. *)
Definition basic_part (ui : UI) : BasicScreen.UI :=
  BasicScreen.mkUI (Basic.mkApp (earnings (app ui)) (editing (app ui))) (form ui).

(** The event of the extended screen for an event of the basic one. *)
Definition extended_event (ev : BasicScreen.Event) : Event :=
  match ev with
  | BasicScreen.ChangeAmount s => ChangeAmount s
  | BasicScreen.ChangeDate s => ChangeDate s
  | BasicScreen.ChangeNote s => ChangeNote s
  | BasicScreen.PressAddOrSave => PressAddOrSave
  | BasicScreen.PressCancel => PressCancel
  | BasicScreen.PressEdit item => PressEdit item
  | BasicScreen.PressDelete k => PressDelete k
  | BasicScreen.ConfirmDelete k => ConfirmDelete k
  end.


(** Decides a closed proposition by evaluation. *)
Ltac by_evaluation :=
  match goal with |- ?P => apply (bool_decide_unpack P); vm_compute; exact I end.

(** * Part II: properties

    ** The rank of a double orders the doubles *)

Section SpecOrder.
Variables prec emax : Z.
Hypothesis Hprec : 0 < prec.
Hypothesis Hemax : prec < emax.

Local Abbreviation emin := (SpecFloat.emin prec emax).

Local Abbreviation rank := (spec_rank prec emax).

Lemma digits2_pos_bounds (m : positive) :
  2 ^ (Z.pos (digits2_pos m) - 1) <= Z.pos m < 2 ^ Z.pos (digits2_pos m).
Proof.
  induction m as [m IH|m IH|]; simpl digits2_pos.
  - rewrite Pos2Z.inj_succ.
    replace (Z.succ (Z.pos (digits2_pos m)) - 1) with (Z.succ (Z.pos (digits2_pos m) - 1)) by lia.
    rewrite !Z.pow_succ_r by lia. lia.
  - rewrite Pos2Z.inj_succ.
    replace (Z.succ (Z.pos (digits2_pos m)) - 1) with (Z.succ (Z.pos (digits2_pos m) - 1)) by lia.
    rewrite !Z.pow_succ_r by lia. lia.
  - simpl. lia.
Qed.

(** One right shift keeps a mantissa above the halved bound. *)
Lemma shr_1_lower (mrs : shr_record) (k : Z) :
  0 <= k -> 2 ^ (k + 1) <= shr_m mrs -> 2 ^ k <= shr_m (shr_1 mrs).
Proof.
  intros Hk. destruct mrs as [m r s]. simpl shr_m at 1.
  rewrite Z.pow_add_r by lia. change (2 ^ 1) with 2.
  assert (0 < 2 ^ k) by (apply Z.pow_pos_nonneg; lia).
  destruct m as [|[p|p|]|p]; simpl; lia.
Qed.

Lemma iter_pos_nat {A} (f : A -> A) (p : positive) (x : A) :
  SpecFloat.iter_pos f p x = Nat.iter (Pos.to_nat p) f x.
Proof.
  revert x. induction p as [p IH|p IH|]; intros x; simpl SpecFloat.iter_pos.
  - rewrite !IH. rewrite Pos2Nat.inj_xI.
    replace (S (2 * Pos.to_nat p))%nat with (Pos.to_nat p + S (Pos.to_nat p))%nat by lia.
    rewrite Nat.iter_add. f_equal. rewrite Nat.iter_succ_r. reflexivity.
  - rewrite !IH. rewrite Pos2Nat.inj_xO.
    replace (2 * Pos.to_nat p)%nat with (Pos.to_nat p + Pos.to_nat p)%nat by lia.
    rewrite Nat.iter_add. reflexivity.
  - reflexivity.
Qed.

Lemma shr_iter_lower (n : nat) (mrs : shr_record) :
  2 ^ Z.of_nat n <= shr_m mrs -> 1 <= shr_m (Nat.iter n shr_1 mrs).
Proof.
  revert mrs. induction n as [|n IH]; intros mrs H.
  - simpl in *. lia.
  - rewrite Nat.iter_succ_r. apply IH. apply shr_1_lower; [lia|].
    replace (Z.of_nat n + 1) with (Z.of_nat (S n)) by lia. exact H.
Qed.

Lemma shr_m_record_of_loc m l : shr_m (shr_record_of_loc m l) = m.
Proof. destruct l as [|[]]; reflexivity. Qed.

(** Above [emin] the shift that [fexp] asks for never empties a mantissa:
    gradual underflow. *)
Lemma shr_fexp_pos (m e : Z) (l : location) :
  0 < m -> emin <= e ->
  0 < shr_m (fst (shr_fexp prec emax m e l)) /\ emin <= snd (shr_fexp prec emax m e l).
Proof.
  intros Hm He. unfold shr_fexp, shr.
  destruct m as [|p|p]; try lia. simpl Zdigits2.
  pose proof (digits2_pos_bounds p) as [Hlo _].
  set (d := Z.pos (digits2_pos p)) in *.
  destruct (SpecFloat.fexp prec emax (d + e) - e) as [|n|n] eqn:En; simpl fst; simpl snd;
    rewrite ?shr_m_record_of_loc; try (split; lia).
  unfold SpecFloat.fexp in En.
  assert (Z.pos n = d - prec) as Hn by lia.
  split; [|lia].
  rewrite iter_pos_nat.
  enough (1 <= shr_m (Nat.iter (Pos.to_nat n) shr_1 (shr_record_of_loc (Z.pos p) l))) by lia.
  apply shr_iter_lower. rewrite shr_m_record_of_loc, positive_nat_Z, Hn.
  etransitivity; [|exact Hlo]. apply Z.pow_le_mono_r; lia.
Qed.

Lemma round_nearest_even_pos m l : 0 < m -> 0 < round_nearest_even m l.
Proof. intros. destruct l as [|[]]; simpl; try lia. destruct (Z.even m); lia. Qed.

Lemma binary_round_aux_nonzero s m e l :
  0 < m -> emin <= e -> signed_nonzero s (binary_round_aux prec emax s m e l).
Proof.
  intros Hm He. unfold binary_round_aux.
  pose proof (shr_fexp_pos m e l Hm He) as [H1 H2].
  destruct (shr_fexp prec emax m e l) as [mrs' e']. simpl in H1, H2.
  pose proof (round_nearest_even_pos _ (loc_of_shr_record mrs') H1) as H3.
  pose proof (shr_fexp_pos _ e' loc_Exact H3 H2) as [H4 _].
  destruct (shr_fexp prec emax _ e' loc_Exact) as [mrs'' e'']. simpl in H4.
  destruct (shr_m mrs''); try lia.
  destruct (e'' <=? emax - prec); reflexivity.
Qed.

(** Rounding a non-zero integer multiple of [2^e], [e >= emin], never
    produces a zero and never changes the sign. *)
Lemma binary_round_nonzero s m e :
  emin <= e -> signed_nonzero s (binary_round prec emax s m e).
Proof.
  intros He. unfold binary_round, shl_align.
  destruct (SpecFloat.fexp prec emax (Z.pos (digits2_pos m) + e) - e) eqn:En;
    apply binary_round_aux_nonzero; try lia.
  unfold SpecFloat.fexp. lia.
Qed.

Lemma bounded_inv m e :
  bounded prec emax m e = true ->
  emin <= e <= emax - prec /\ Z.pos m < 2 ^ prec /\ (emin < e -> 2 ^ (prec - 1) <= Z.pos m).
Proof.
  unfold bounded, canonical_mantissa, SpecFloat.fexp. intros H.
  apply andb_prop in H as [H1 H2].
  apply Z.eqb_eq in H1. apply Z.leb_le in H2.
  pose proof (digits2_pos_bounds m) as [Hlo Hhi].
  set (d := Z.pos (digits2_pos m)) in *.
  assert (d <= prec) by lia.
  repeat split; try lia.
  - eapply Z.lt_le_trans; [exact Hhi|]. apply Z.pow_le_mono_r; lia.
  - intros He. replace prec with d by lia. exact Hlo.
Qed.

Lemma rank_finite_bound s m e :
  bounded prec emax m e = true ->
  0 < Z.pos m * 2 ^ (e - emin) < 2 ^ (emax - emin) /\
  rank (S754_finite s m e) = cond_Zopp s (Z.pos m * 2 ^ (e - emin)).
Proof.
  intros H. apply bounded_inv in H as (He & Hm & _).
  assert (0 < 2 ^ (e - emin)) by (apply Z.pow_pos_nonneg; lia).
  split; [split; [lia|]|reflexivity].
  apply Z.lt_le_trans with (2 ^ prec * 2 ^ (e - emin));
    [apply Z.mul_lt_mono_pos_r; assumption|].
  rewrite <- Z.pow_add_r by lia. apply Z.pow_le_mono_r; lia.
Qed.

(** Canonical mantissas: the smaller exponent is the smaller magnitude. *)
Lemma finite_lt_exp m1 e1 m2 e2 :
  bounded prec emax m1 e1 = true -> bounded prec emax m2 e2 = true ->
  e1 < e2 -> Z.pos m1 * 2 ^ (e1 - emin) < Z.pos m2 * 2 ^ (e2 - emin).
Proof.
  intros H1 H2 He.
  apply bounded_inv in H1 as (He1 & Hm1 & _).
  apply bounded_inv in H2 as (He2 & _ & Hm2).
  specialize (Hm2 ltac:(lia)).
  replace (e2 - emin) with ((e2 - e1) + (e1 - emin)) by lia.
  rewrite Z.pow_add_r by lia.
  assert (0 < 2 ^ (e1 - emin)) by (apply Z.pow_pos_nonneg; lia).
  assert (2 ^ 1 <= 2 ^ (e2 - e1)) as Hp by (apply Z.pow_le_mono_r; lia).
  change (2 ^ 1) with 2 in Hp.
  assert (2 ^ prec = 2 * 2 ^ (prec - 1)) as Hq.
  { replace prec with (Z.succ (prec - 1)) at 1 by lia. apply Z.pow_succ_r. lia. }
  assert (Z.pos m1 < Z.pos m2 * 2 ^ (e2 - e1)) by nia.
  rewrite Z.mul_assoc. apply Z.mul_lt_mono_pos_r; assumption.
Qed.

(** [SFcompare] is the comparison of ranks. *)
Lemma SFcompare_rank (x y : spec_float) :
  SpecFloat.valid_binary prec emax x = true -> SpecFloat.valid_binary prec emax y = true ->
  is_nan_sf x = false -> is_nan_sf y = false ->
  SFcompare x y = Some (rank x ?= rank y).
Proof.
  intros Vx Vy Nx Ny.
  destruct x as [sx|sx| |sx mx ex], y as [sy|sy| |sy my ey]; try discriminate; simpl in Vx, Vy;
    try (pose proof (rank_finite_bound sx _ _ Vx) as [Bx _]);
    try (pose proof (rank_finite_bound sy _ _ Vy) as [By _]);
    assert (0 < 2 ^ (emax - emin)) by
      (apply Z.pow_pos_nonneg; [lia|]; unfold SpecFloat.emin; lia);
    unfold SFcompare, rank; f_equal; symmetry.
  all: try solve [ repeat match goal with b : bool |- _ => destruct b end; unfold cond_Zopp;
    first [apply Z.compare_eq_iff; lia|apply Z.compare_lt_iff; lia|apply Z.compare_gt_iff; lia] ].
  destruct sx, sy; simpl cond_Zopp.
  - destruct (Z.compare_spec ex ey) as [->|He|He].
    + change (PosDef.Pos.compare_cont Eq mx my) with (Pos.compare mx my).
      assert (0 < 2 ^ (ey - emin)) by lia.
      destruct (Pos.compare_spec mx my) as [->|Hm|Hm]; simpl CompOpp;
        first [apply Z.compare_eq_iff|apply Z.compare_lt_iff|apply Z.compare_gt_iff]; nia.
    + apply Z.compare_gt_iff. pose proof (finite_lt_exp _ _ _ _ Vx Vy He). lia.
    + apply Z.compare_lt_iff. pose proof (finite_lt_exp _ _ _ _ Vy Vx He). lia.
  - apply Z.compare_lt_iff. lia.
  - apply Z.compare_gt_iff. lia.
  - destruct (Z.compare_spec ex ey) as [->|He|He].
    + change (PosDef.Pos.compare_cont Eq mx my) with (Pos.compare mx my).
      assert (0 < 2 ^ (ey - emin)) by lia.
      destruct (Pos.compare_spec mx my) as [->|Hm|Hm];
        first [apply Z.compare_eq_iff|apply Z.compare_lt_iff|apply Z.compare_gt_iff]; nia.
    + apply Z.compare_lt_iff. apply finite_lt_exp; assumption.
    + apply Z.compare_gt_iff. apply finite_lt_exp; assumption.
Qed.

Lemma iter_xO_value (m d : positive) :
  Z.pos (Pos.iter xO m d) = Z.pos m * 2 ^ Z.pos d.
Proof.
  induction d as [|d IH] using Pos.peano_ind.
  - simpl. lia.
  - rewrite Pos.iter_succ, Pos2Z.inj_xO, IH, Pos2Z.inj_succ, Z.pow_succ_r by lia. lia.
Qed.

Lemma shl_align_value m e ez :
  ez <= e -> Z.pos (fst (shl_align m e ez)) = Z.pos m * 2 ^ (e - ez).
Proof.
  intros H. unfold shl_align.
  destruct (ez - e) as [|d|d] eqn:Ed; simpl fst; try lia.
  - replace (e - ez) with 0 by lia. lia.
  - rewrite iter_xO_value. f_equal. f_equal. lia.
Qed.

Lemma signed_nonzero_cmp s x :
  signed_nonzero s x ->
  SFltb (S754_zero false) x = negb s /\ SFltb x (S754_zero false) = s.
Proof. destruct x as [| | |s' m e]; simpl; try tauto; intros ->; destruct s; auto. Qed.

(** The sign of a difference is the comparison of the ranks: the rounded
    difference of two distinct numbers is never zero, and
    [Infinity - Infinity] is NaN, neither negative nor positive. *)
Lemma SFsub_sign (x y : spec_float) :
  SpecFloat.valid_binary prec emax x = true -> SpecFloat.valid_binary prec emax y = true ->
  is_nan_sf x = false -> is_nan_sf y = false ->
  SFltb (S754_zero false) (SFsub prec emax x y) = (rank y <? rank x) /\
  SFltb (SFsub prec emax x y) (S754_zero false) = (rank x <? rank y).
Proof.
  intros Vx Vy Nx Ny.
  assert (0 < 2 ^ (emax - emin)) as Hinf by
      (apply Z.pow_pos_nonneg; [lia|]; unfold SpecFloat.emin; lia).
  destruct x as [sx|sx| |sx mx ex], y as [sy|sy| |sy my ey]; try discriminate; simpl in Vx, Vy;
    try (pose proof (rank_finite_bound sx _ _ Vx) as [Bx _]);
    try (pose proof (rank_finite_bound sy _ _ Vy) as [By _]).
  all: try solve [ repeat match goal with b : bool |- _ => destruct b end;
    unfold SFsub, SFltb, SFcompare, rank, cond_Zopp;
    split; symmetry; first [apply Z.ltb_lt; lia|apply Z.ltb_ge; lia] ].
  apply bounded_inv in Vx as (Hex & _ & _). apply bounded_inv in Vy as (Hey & _ & _).
  unfold SFsub.
  set (ez := Z.min ex ey).
  assert (emin <= ez) by lia.
  pose proof (shl_align_value mx ex ez ltac:(lia)) as Hx.
  pose proof (shl_align_value my ey ez ltac:(lia)) as Hy.
  set (D := cond_Zopp sx (Z.pos (fst (shl_align mx ex ez))) -
            cond_Zopp sy (Z.pos (fst (shl_align my ey ez)))).
  assert (rank (S754_finite sx mx ex) - rank (S754_finite sy my ey) = D * 2 ^ (ez - emin)) as HD.
  { unfold D, rank. rewrite Hx, Hy.
    replace (ex - emin) with ((ex - ez) + (ez - emin)) by lia.
    replace (ey - emin) with ((ey - ez) + (ez - emin)) by lia.
    rewrite !Z.pow_add_r by lia. destruct sx, sy; simpl; ring. }
  assert (0 < 2 ^ (ez - emin)) as Hp by (apply Z.pow_pos_nonneg; lia).
  generalize dependent (rank (S754_finite sx mx ex)).
  generalize dependent (rank (S754_finite sy my ey)).
  intros ry rx HD.
  destruct D as [|p|p] eqn:ED; unfold binary_normalize.
  - simpl. split; symmetry; apply Z.ltb_ge; lia.
  - pose proof (binary_round_nonzero false p ez ltac:(lia)) as Hnz.
    apply signed_nonzero_cmp in Hnz as [-> ->]. simpl.
    split; symmetry; [apply Z.ltb_lt|apply Z.ltb_ge]; nia.
  - pose proof (binary_round_nonzero true p ez ltac:(lia)) as Hnz.
    apply signed_nonzero_cmp in Hnz as [-> ->]. simpl.
    split; symmetry; [apply Z.ltb_ge|apply Z.ltb_lt]; nia.
Qed.
End SpecOrder.

(** ** Doubles: comparisons and the sign of a difference *)

Section Doubles.

Lemma prec_pos : 0 < prec.
Proof. reflexivity. Qed.

Lemma prec_lt_emax : prec < emax.
Proof. reflexivity. Qed.

Lemma isNaN_spec (x : float) : Number.isNaN x = is_nan_sf (Prim2SF x).
Proof.
  unfold Number.isNaN, is_nan. rewrite FloatAxioms.eqb_spec. unfold SFeqb.
  destruct (is_nan_sf (Prim2SF x)) eqn:E.
  - destruct (Prim2SF x); try discriminate. reflexivity.
  - rewrite (SFcompare_rank prec emax prec_pos prec_lt_emax)
      by (auto using Prim2SF_valid).
    rewrite Z.compare_refl. reflexivity.
Qed.

Lemma compare_rank (x y : float) :
  Number.isNaN x = false -> Number.isNaN y = false ->
  SFcompare (Prim2SF x) (Prim2SF y) = Some (Number.rank x ?= Number.rank y).
Proof.
  rewrite !isNaN_spec. intros Hx Hy.
  apply (SFcompare_rank prec emax prec_pos prec_lt_emax); auto using Prim2SF_valid.
Qed.

Lemma ltb_rank (x y : float) :
  Number.isNaN x = false -> Number.isNaN y = false ->
  (x <? y)%float = (Number.rank x <? Number.rank y).
Proof.
  intros Hx Hy. rewrite FloatAxioms.ltb_spec. unfold SFltb. rewrite compare_rank by assumption.
  unfold Z.ltb. reflexivity.
Qed.

Lemma leb_rank (x y : float) :
  Number.isNaN x = false -> Number.isNaN y = false ->
  (x <=? y)%float = (Number.rank x <=? Number.rank y).
Proof.
  intros Hx Hy. rewrite FloatAxioms.leb_spec. unfold SFleb. rewrite compare_rank by assumption.
  unfold Z.leb. destruct (Number.rank x ?= Number.rank y); reflexivity.
Qed.

Lemma eqb_rank (x y : float) :
  Number.isNaN x = false -> Number.isNaN y = false ->
  (x =? y)%float = (Number.rank x =? Number.rank y).
Proof.
  intros Hx Hy. rewrite FloatAxioms.eqb_spec. unfold SFeqb. rewrite compare_rank by assumption.
  unfold Z.eqb. destruct (Number.rank x ?= Number.rank y) eqn:E; try reflexivity.
  - apply Z.compare_eq_iff in E. rewrite E.
    destruct (Number.rank y); try reflexivity; symmetry; apply Pos.eqb_refl.
  - destruct (Number.rank x), (Number.rank y); try reflexivity; try discriminate;
      simpl in E; symmetry; apply Pos.eqb_neq; intros ->; rewrite Pos.compare_refl in E;
      discriminate.
  - destruct (Number.rank x), (Number.rank y); try reflexivity; try discriminate;
      simpl in E; symmetry; apply Pos.eqb_neq; intros ->; rewrite Pos.compare_refl in E;
      discriminate.
Qed.

Lemma zero_not_nan : Number.isNaN 0%float = false.
Proof. reflexivity. Qed.

Lemma rank_zero : Number.rank 0%float = 0.
Proof. reflexivity. Qed.

(** A comparison that holds leaves out NaN. *)
Lemma ltb_true_not_nan (x y : float) :
  (x <? y)%float = true -> Number.isNaN x = false /\ Number.isNaN y = false.
Proof.
  rewrite FloatAxioms.ltb_spec, !isNaN_spec. unfold SFltb.
  destruct (Prim2SF x), (Prim2SF y); simpl; auto; discriminate.
Qed.

Lemma sgn_Gt (v : float) : Number.sgn v = Gt <-> (0 <? v)%float = true.
Proof.
  unfold Number.sgn. split.
  - destruct (v <? 0)%float; [discriminate|]. destruct (0 <? v)%float; [auto|discriminate].
  - intros H. rewrite H.
    destruct (ltb_true_not_nan _ _ H) as [H0 Hv].
    rewrite ltb_rank in H |- * by assumption.
    apply Z.ltb_lt in H.
    destruct (Number.rank v <? Number.rank 0%float) eqn:E; [|reflexivity].
    apply Z.ltb_lt in E. lia.
Qed.

(** [x - y] is negative, positive or neither as [x] is below, above or
    level with [y]. *)
Lemma sgn_sub (x y : float) :
  Number.isNaN x = false -> Number.isNaN y = false ->
  Number.sgn (x - y)%float = (Number.rank x ?= Number.rank y).
Proof.
  rewrite !isNaN_spec. intros Hx Hy.
  unfold Number.sgn. rewrite !FloatAxioms.ltb_spec, FloatAxioms.sub_spec.
  change (Prim2SF 0%float) with (S754_zero false).
  destruct (SFsub_sign prec emax prec_pos prec_lt_emax (Prim2SF x) (Prim2SF y))
    as [Hpos Hneg]; auto using Prim2SF_valid.
  unfold SF64sub. rewrite Hpos, Hneg. fold (Number.rank x) (Number.rank y).
  destruct (Z.ltb_spec (Number.rank x) (Number.rank y)).
  - symmetry. apply Z.compare_lt_iff. assumption.
  - destruct (Z.ltb_spec (Number.rank y) (Number.rank x)); symmetry.
    + apply Z.compare_gt_iff. assumption.
    + apply Z.compare_eq_iff. lia.
Qed.

Lemma or_zero_not_nan (x : float) : Number.isNaN (Number.or x 0%float) = false.
Proof.
  unfold Number.or, Number.truthy, Number.isNaN.
  destruct (is_nan x) eqn:E; simpl; [reflexivity|].
  destruct (is_zero x); simpl; [reflexivity|exact E].
Qed.

(** A positive number is truthy: [x || 0] is [x]. *)
Lemma positive_truthy (x : float) : (0 <? x)%float = true -> Number.or x 0%float = x.
Proof.
  intros H. destruct (ltb_true_not_nan _ _ H) as [_ Hx].
  unfold Number.or, Number.truthy. unfold Number.isNaN in Hx. rewrite Hx. simpl.
  unfold is_zero. rewrite eqb_rank by (auto using zero_not_nan).
  rewrite ltb_rank in H by (auto using zero_not_nan). apply Z.ltb_lt in H.
  destruct (Z.eqb_spec (Number.rank x) (Number.rank zero)) as [E|E]; [|reflexivity].
  change (Number.rank zero) with 0 in E. rewrite rank_zero in H. lia.
Qed.

(** The form's test: what is not rejected is positive. *)
Lemma accepted_positive (parsed : float) :
  Number.isNaN parsed || (parsed <=? 0)%float = false -> (0 <? parsed)%float = true.
Proof.
  intros H. apply orb_false_elim in H as [Hn Hle].
  rewrite leb_rank in Hle by (auto using zero_not_nan).
  rewrite ltb_rank by (auto using zero_not_nan).
  apply Z.leb_gt in Hle. apply Z.ltb_lt. assumption.
Qed.

End Doubles.

(** ** The stable sort *)

Section SortTheory.
Context {A : Type} (comparefn : A -> A -> float).

Local Abbreviation cmp_le := (cmp_le comparefn).
Local Abbreviation cmp_eq := (cmp_eq comparefn).

Lemma sort_insert_perm (x : A) (l : list A) : sort_insert comparefn x l ≡ₚ x :: l.
Proof.
  induction l as [|y l IH]; simpl; [reflexivity|].
  destruct (0 <? comparefn x y)%float; [|reflexivity].
  rewrite IH. apply Permutation_swap.
Qed.

Lemma Array_sort_perm (l : list A) : Array_sort comparefn l ≡ₚ l.
Proof.
  induction l as [|x l IH]; simpl; [reflexivity|].
  rewrite sort_insert_perm. by rewrite IH.
Qed.

Lemma Array_sort_length (l : list A) : length (Array_sort comparefn l) = length l.
Proof. apply Permutation_length, Array_sort_perm. Qed.

Hypothesis consistent : ConsistentComparator comparefn.

Lemma cmp_le_trans x y z : cmp_le x y -> cmp_le y z -> cmp_le x z.
Proof. apply (cc_trans _ consistent). Qed.

Lemma after_cmp_le x y : (0 <? comparefn x y)%float = true -> cmp_le y x.
Proof.
  intros H. apply sgn_Gt in H. unfold cmp_le.
  rewrite (cc_antisym _ consistent), H. discriminate.
Qed.

Lemma not_after_cmp_le x y : (0 <? comparefn x y)%float = false -> cmp_le x y.
Proof. intros H E. apply sgn_Gt in E. congruence. Qed.

Lemma cmp_eq_sym x y : cmp_eq x y -> cmp_eq y x.
Proof. unfold cmp_eq. intros H. rewrite (cc_antisym _ consistent), H. reflexivity. Qed.

Lemma cmp_eq_le x y : cmp_eq x y -> cmp_le x y.
Proof. unfold cmp_eq, cmp_le. intros ->. discriminate. Qed.

Lemma sort_insert_sorted (x : A) (l : list A) :
  StronglySorted cmp_le l -> StronglySorted cmp_le (sort_insert comparefn x l).
Proof.
  induction 1 as [|y l Hl IH Hy]; simpl.
  - repeat constructor.
  - destruct (0 <? comparefn x y)%float eqn:E.
    + constructor; [exact IH|].
      rewrite sort_insert_perm. constructor; [|exact Hy].
      by apply after_cmp_le.
    + apply not_after_cmp_le in E.
      constructor; [by constructor|].
      constructor; [exact E|].
      eapply Forall_impl; [exact Hy|]. intros z Hz. by eapply cmp_le_trans.
Qed.

Lemma Array_sort_sorted (l : list A) : StronglySorted cmp_le (Array_sort comparefn l).
Proof.
  induction l as [|x l IH]; simpl; [constructor|]. by apply sort_insert_sorted.
Qed.

(** Two elements that the sort exchanges are not both equal to a third. *)
Lemma sort_insert_stable (z x : A) (l : list A) :
  filter (cmp_eq z) (sort_insert comparefn x l) = filter (cmp_eq z) (x :: l).
Proof.
  induction l as [|y l IH]; simpl; [reflexivity|].
  destruct (0 <? comparefn x y)%float eqn:E; [|reflexivity].
  rewrite (filter_cons _ y), IH, !filter_cons.
  destruct (decide (cmp_eq z y)) as [Hy|Hy], (decide (cmp_eq z x)) as [Hx|Hx];
    try reflexivity.
  exfalso. apply sgn_Gt in E.
  assert (cmp_le x y) as Hle.
  { eapply cmp_le_trans; [apply cmp_eq_le, cmp_eq_sym, Hx|apply cmp_eq_le, Hy]. }
  by apply Hle.
Qed.

Lemma Array_sort_stable (z : A) (l : list A) :
  filter (cmp_eq z) (Array_sort comparefn l) = filter (cmp_eq z) l.
Proof.
  induction l as [|x l IH]; simpl; [reflexivity|].
  rewrite sort_insert_stable, !filter_cons, IH. reflexivity.
Qed.

Lemma cmp_eq_refl x : cmp_eq x x.
Proof.
  unfold cmp_eq. pose proof (cc_antisym _ consistent x x) as H.
  destruct (Number.sgn (comparefn x x)); simpl in H; congruence.
Qed.

Lemma cmp_le_antisym x y : cmp_le x y -> cmp_le y x -> cmp_eq x y.
Proof.
  unfold cmp_le, cmp_eq. rewrite (cc_antisym _ consistent y x).
  destruct (Number.sgn (comparefn x y)); simpl; congruence.
Qed.

(** The result of a stable sort does not depend on how it is computed: two
    sorted lists with the same elements in each class of equal elements, in
    the same order, are the same list. *)
Lemma stable_sorted_unique (l1 l2 : list A) :
  StronglySorted cmp_le l1 -> StronglySorted cmp_le l2 ->
  (forall z, filter (cmp_eq z) l1 = filter (cmp_eq z) l2) ->
  l1 = l2.
Proof.
  revert l2. induction l1 as [|x l1 IH]; intros [|y l2] S1 S2 Hf.
  - reflexivity.
  - specialize (Hf y). rewrite filter_nil, filter_cons_True in Hf by apply cmp_eq_refl.
    discriminate.
  - specialize (Hf x). rewrite filter_nil, filter_cons_True in Hf by apply cmp_eq_refl.
    discriminate.
  - apply StronglySorted_inv in S1 as [S1 Hx]. apply StronglySorted_inv in S2 as [S2 Hy].
    assert (x = y) as ->.
    { pose proof (Hf x) as Hfx. rewrite (filter_cons_True _ x) in Hfx by apply cmp_eq_refl.
      rewrite (filter_cons _ y) in Hfx.
      destruct (decide (cmp_eq x y)) as [Exy|Exy]; [congruence|].
      exfalso. apply Exy. apply cmp_le_antisym.
      - pose proof (Hf y) as Hfy.
        rewrite (filter_cons_True _ y) in Hfy by apply cmp_eq_refl.
        rewrite (filter_cons_False _ x) in Hfy by (intros E; apply Exy, cmp_eq_sym, E).
        assert (y ∈ filter (cmp_eq y) l1) as Hin by (rewrite Hfy; left).
        apply list_elem_of_filter in Hin as [_ Hin].
        rewrite Forall_forall in Hx. by apply Hx.
      - assert (x ∈ filter (cmp_eq x) l2) as Hin by (rewrite <- Hfx; left).
        apply list_elem_of_filter in Hin as [_ Hin].
        rewrite Forall_forall in Hy. by apply Hy. }
    f_equal. apply IH; [assumption..|].
    intros z. specialize (Hf z). rewrite !filter_cons in Hf.
    destruct (decide (cmp_eq z y)); congruence.
Qed.

Lemma Array_sort_unique (l l' : list A) :
  StronglySorted cmp_le l' ->
  (forall z, filter (cmp_eq z) l' = filter (cmp_eq z) l) ->
  l' = Array_sort comparefn l.
Proof.
  intros S Hf. apply stable_sorted_unique; [exact S|apply Array_sort_sorted|].
  intros z. by rewrite Array_sort_stable.
Qed.

End SortTheory.

Lemma StronglySorted_weaken {A : Type} (R1 R2 : A -> A -> Prop) (l : list A) :
  (forall x y, R1 x y -> R2 x y) -> StronglySorted R1 l -> StronglySorted R2 l.
Proof.
  intros HR. induction 1 as [|x l Hl IH Hx]; constructor; [exact IH|].
  eapply Forall_impl; [exact Hx|]. auto.
Qed.

(** ** The comparators of [sorted] *)

Section Comparators.
Variable localeCompare : string -> string -> float.
Hypothesis collation : ConsistentComparator localeCompare.

Lemma sgn_zero : Number.sgn 0%float = Eq.
Proof. reflexivity. Qed.

Lemma sgn_compareDate (dir : SortDir) (a b : Earning) :
  Number.sgn (compareDate localeCompare dir a b) =
  if decide (date a = date b) then Eq
  else match dir with
       | asc => Number.sgn (localeCompare (date a) (date b))
       | desc => Number.sgn (localeCompare (date b) (date a))
       end.
Proof. unfold compareDate. destruct (decide _), dir; auto using sgn_zero. Qed.

Lemma compareDate_consistent (dir : SortDir) :
  ConsistentComparator (compareDate localeCompare dir).
Proof.
  split.
  - intros a b. rewrite !sgn_compareDate.
    destruct (decide (date a = date b)) as [E|E], (decide (date b = date a)) as [E'|E'];
      try congruence; [reflexivity|].
    destruct dir; apply (cc_antisym _ collation).
  - intros a b c. rewrite !sgn_compareDate.
    destruct (decide (date a = date c)) as [Eac|Eac]; [discriminate|].
    destruct (decide (date a = date b)) as [Eab|Eab].
    { rewrite Eab. intros _. destruct (decide (date b = date c)); [congruence|auto]. }
    destruct (decide (date b = date c)) as [Ebc|Ebc].
    { rewrite <- Ebc. auto. }
    destruct dir.
    + apply (cc_trans _ collation).
    + intros H1 H2. by apply (cc_trans _ collation (date c) (date b) (date a)).
Qed.

Lemma amount_key_not_nan (e : Earning) : Number.isNaN (amount_key e) = false.
Proof. apply or_zero_not_nan. Qed.

Lemma sgn_compareAmount (dir : SortDir) (a b : Earning) :
  Number.sgn (compareAmount dir a b) =
  match dir with
  | asc => Number.rank (amount_key a) ?= Number.rank (amount_key b)
  | desc => Number.rank (amount_key b) ?= Number.rank (amount_key a)
  end.
Proof.
  unfold compareAmount. fold (amount_key a) (amount_key b).
  destruct dir; apply sgn_sub; apply amount_key_not_nan.
Qed.

Lemma compareAmount_consistent (dir : SortDir) : ConsistentComparator (compareAmount dir).
Proof.
  split.
  - intros a b. rewrite !sgn_compareAmount. destruct dir; apply Z.compare_antisym.
  - intros a b c. rewrite !sgn_compareAmount.
    destruct dir; rewrite !Z.compare_le_iff; lia.
Qed.

Lemma comparefn_consistent (by_ : SortBy) (dir : SortDir) :
  ConsistentComparator (comparefn localeCompare by_ dir).
Proof. destruct by_; [apply compareDate_consistent|apply compareAmount_consistent]. Qed.

Lemma sorted_of_Array_sort (l : list Earning) (by_ : SortBy) (dir : SortDir) :
  sorted_of localeCompare l by_ dir = Array_sort (comparefn localeCompare by_ dir) l.
Proof. destruct by_; reflexivity. Qed.

(** What the comparator calls "not after" is the order of the key. *)
Lemma cmp_le_ordered (by_ : SortBy) (dir : SortDir) (a b : Earning) :
  cmp_le (comparefn localeCompare by_ dir) a b <-> ordered localeCompare by_ dir a b.
Proof.
  unfold cmp_le, ordered, collates_le. destruct by_; simpl.
  - rewrite sgn_compareDate.
    destruct dir, (decide (date a = date b)) as [E|E]; split; intros H;
      try (left; congruence); try (by right); try discriminate;
      destruct H as [H|H]; congruence.
  - rewrite sgn_compareAmount.
    destruct dir; rewrite leb_rank by apply amount_key_not_nan;
      rewrite Z.leb_le, <- Z.compare_le_iff; reflexivity.
Qed.

Lemma cmp_eq_same_key (by_ : SortBy) (dir : SortDir) (a b : Earning) :
  cmp_eq (comparefn localeCompare by_ dir) a b <-> same_key localeCompare by_ a b.
Proof.
  unfold cmp_eq, same_key, collates_le. destruct by_; simpl.
  - rewrite sgn_compareDate.
    destruct (decide (date a = date b)) as [E|E].
    { split; [intros _; split; left; congruence|reflexivity]. }
    rewrite !(cc_antisym _ collation (date b) (date a)).
    destruct dir, (Number.sgn (localeCompare (date a) (date b))); simpl;
      intuition congruence.
  - rewrite sgn_compareAmount, eqb_rank by apply amount_key_not_nan.
    rewrite Z.eqb_eq. destruct dir; rewrite Z.compare_eq_iff; split; congruence.
Qed.

Lemma sorted_of_perm l by_ dir : sorted_of localeCompare l by_ dir ≡ₚ l.
Proof. rewrite sorted_of_Array_sort. apply Array_sort_perm. Qed.

Lemma sorted_of_ordered l by_ dir :
  StronglySorted (ordered localeCompare by_ dir) (sorted_of localeCompare l by_ dir).
Proof.
  rewrite sorted_of_Array_sort.
  eapply StronglySorted_weaken; [apply cmp_le_ordered|].
  apply Array_sort_sorted, comparefn_consistent.
Qed.

Lemma sorted_of_stable l by_ dir (x : Earning) :
  filter (same_key localeCompare by_ x) (sorted_of localeCompare l by_ dir) =
  filter (same_key localeCompare by_ x) l.
Proof.
  rewrite sorted_of_Array_sort.
  rewrite <- !(list_filter_iff _ _ _ (cmp_eq_same_key by_ dir x)).
  apply Array_sort_stable, comparefn_consistent.
Qed.

(** Whatever stable sort the engine runs, the view is this list. *)
Lemma sorted_of_unique l by_ dir (v : list Earning) :
  StronglySorted (ordered localeCompare by_ dir) v ->
  (forall x, filter (same_key localeCompare by_ x) v =
             filter (same_key localeCompare by_ x) l) ->
  v = sorted_of localeCompare l by_ dir.
Proof.
  intros S Hf. rewrite sorted_of_Array_sort.
  apply Array_sort_unique; [apply comparefn_consistent| |].
  - eapply StronglySorted_weaken; [|exact S]. intros x y. apply cmp_le_ordered.
  - intros z. rewrite !(list_filter_iff _ _ _ (cmp_eq_same_key by_ dir z)). apply Hf.
Qed.

(** On array objects: the memo writes one new object and nothing else. *)
Lemma sorted_memo_store (r : positive) (by_ : SortBy) (dir : SortDir) (σ : Store)
    (l : list Earning) :
  σ !! r = Some l ->
  let '(arr, σ') := sorted_memo localeCompare r by_ dir σ in
  σ !! arr = None /\
  σ' !! arr = Some (sorted_of localeCompare l by_ dir) /\
  forall r', r' <> arr -> σ' !! r' = σ !! r'.
Proof.
  intros Hr. unfold sorted_memo, spread, sort_in_place. rewrite Hr. simpl.
  set (arr := fresh (dom σ)).
  assert (σ !! arr = None) as Hfresh.
  { apply not_elem_of_dom. apply is_fresh. }
  split; [exact Hfresh|].
  destruct by_; simpl; (split;
    [rewrite lookup_alter_eq, lookup_insert_eq; reflexivity
    |intros r' Hne; rewrite lookup_alter_ne, lookup_insert_ne by congruence; reflexivity]).
Qed.

End Comparators.

(** ** The ledger: reconciliation and deletion *)

Section Ledger.

Lemma some_id_spec (item : Earning) (prev : list Earning) :
  existsb (fun p => bool_decide (id p = id item)) prev = true <-> id item ∈ ids prev.
Proof.
  rewrite existsb_exists. unfold ids. rewrite list_elem_of_fmap. split.
  - intros (p & Hin & Hp). apply bool_decide_eq_true in Hp.
    exists p. split; [congruence|]. by apply list_elem_of_In.
  - intros (p & Hp & Hin). exists p. split; [by apply list_elem_of_In|].
    apply bool_decide_eq_true. congruence.
Qed.

Lemma handleAdd_update_present (item : Earning) (prev : list Earning) :
  id item ∈ ids prev ->
  handleAdd_update item prev =
  (fun p => if bool_decide (id p = id item) then item else p) <$> prev.
Proof. intros H. unfold handleAdd_update. apply some_id_spec in H. by rewrite H. Qed.

Lemma handleAdd_update_absent (item : Earning) (prev : list Earning) :
  id item ∉ ids prev -> handleAdd_update item prev = item :: prev.
Proof.
  intros H. unfold handleAdd_update.
  destruct (existsb _ prev) eqn:E; [|reflexivity].
  apply some_id_spec in E. contradiction.
Qed.

(** Replacing by id keeps the ids where they are. *)
Lemma handleAdd_update_ids_present (item : Earning) (prev : list Earning) :
  id item ∈ ids prev -> ids (handleAdd_update item prev) = ids prev.
Proof.
  intros H. rewrite handleAdd_update_present by assumption.
  unfold ids. rewrite <- list_fmap_compose. apply list_fmap_ext.
  intros i p _. simpl. case_bool_decide; congruence.
Qed.

Lemma handleAdd_update_NoDup (item : Earning) (l : list Earning) :
  NoDup (ids l) -> NoDup (ids (handleAdd_update item l)).
Proof.
  intros H. destruct (decide (id item ∈ ids l)) as [Hin|Hin].
  - by rewrite handleAdd_update_ids_present.
  - rewrite handleAdd_update_absent by assumption. simpl. by constructor.
Qed.

Lemma handleDelete_update_sublist (k : string) (l : list Earning) :
  handleDelete_update k l `sublist_of` l.
Proof. apply sublist_filter. Qed.

Lemma handleDelete_update_NoDup (k : string) (l : list Earning) :
  NoDup (ids l) -> NoDup (ids (handleDelete_update k l)).
Proof.
  intros H. eapply sublist_NoDup; [exact H|].
  apply fmap_sublist, handleDelete_update_sublist.
Qed.

Lemma handleDelete_update_absent (k : string) (l : list Earning) :
  k ∉ ids l -> handleDelete_update k l = l.
Proof.
  unfold handleDelete_update, ids. induction l as [|x l IH]; intros H; [reflexivity|].
  rewrite fmap_cons, not_elem_of_cons in H. destruct H as [Hx Hl].
  rewrite filter_cons_True by congruence. f_equal. by apply IH.
Qed.

Lemma handleDelete_update_count (k : string) (l : list Earning) :
  length l =
  (length (handleDelete_update k l) + length (filter (fun x => id x = k) l))%nat.
Proof.
  unfold handleDelete_update. induction l as [|x l IH]; [reflexivity|].
  rewrite !filter_cons. destruct (decide (id x = k)), (decide (id x ≠ k));
    try contradiction; simpl; lia.
Qed.

Lemma apply_op_NoDup (l : list Earning) (op : LedgerOp) :
  NoDup (ids l) -> NoDup (ids (apply_op l op)).
Proof.
  destruct op; simpl; [apply handleAdd_update_NoDup|apply handleDelete_update_NoDup].
Qed.

Lemma fold_ops_NoDup (ops : list LedgerOp) (l : list Earning) :
  NoDup (ids l) -> NoDup (ids (fold_left apply_op ops l)).
Proof.
  revert l. induction ops as [|op ops IH]; intros l H; simpl; [exact H|].
  apply IH, apply_op_NoDup, H.
Qed.

End Ledger.

(** ** Pages *)

Section Pages.

(** [Math.ceil(n / p)] in integers. *)
Lemma Math_ceil_quotient (n p : Z) :
  0 < p -> Math_ceil (inject_Z n / inject_Z p) = - (- n / p).
Proof.
  intros Hp. destruct p as [|p|p]; try lia.
  unfold Math_ceil, Qceiling, Qfloor, Qdiv, Qinv, Qmult, Qopp, inject_Z. simpl.
  rewrite Z.mul_1_r. reflexivity.
Qed.

(** It is the least integer [c] with [n <= c * p]. *)
Lemma Math_ceil_bounds (n p : Z) :
  0 < p ->
  let c := Math_ceil (inject_Z n / inject_Z p) in (c - 1) * p < n <= c * p.
Proof.
  intros Hp c. subst c. rewrite Math_ceil_quotient by assumption.
  pose proof (Z.div_mod (- n) p ltac:(lia)) as Hdm.
  pose proof (Z.mod_pos_bound (- n) p Hp) as Hm.
  nia.
Qed.

Lemma totalPages_of_ge_1 (n p : Z) : 1 <= totalPages_of n p.
Proof. unfold totalPages_of. lia. Qed.

Lemma slice_lookup {A : Type} (start size : Z) (l : list A) (i : nat) :
  0 <= start -> 0 < size ->
  slice start (start + size) l !! i =
  if decide (Z.of_nat i < size) then l !! Z.to_nat (start + Z.of_nat i) else None.
Proof.
  intros Hs Hz. unfold slice.
  destruct (Z.ltb_spec start 0); [lia|].
  destruct (Z.ltb_spec (start + size) 0); [lia|].
  set (len := Z.of_nat (length l)).
  destruct (decide (Z.of_nat i < size)) as [Hi|Hi].
  - destruct (decide (start + Z.of_nat i < len)) as [Hlt|Hge].
    + rewrite lookup_take_lt by lia. rewrite lookup_drop. f_equal. lia.
    + rewrite (proj2 (lookup_ge_None l _)) by lia.
      apply lookup_ge_None. rewrite length_take, length_drop. lia.
  - apply lookup_ge_None. rewrite length_take, length_drop. lia.
Qed.

End Pages.

Section AppFacts.
Variable localeCompare : string -> string -> float.

Lemma sorted_length (st : AppState) :
  length (sorted localeCompare st) = length (earnings st).
Proof.
  unfold sorted. rewrite sorted_of_Array_sort. apply Array_sort_length.
Qed.

(** The number of pages is a function of the dependencies of the page
    effect. *)
Lemma totalPages_deps (st : AppState) :
  totalPages localeCompare st =
  totalPages_of (Z.of_nat (length (earnings st))) (pageSize st).
Proof. unfold totalPages. by rewrite sorted_length. Qed.

Lemma totalPages_ge_1 (st : AppState) : 1 <= totalPages localeCompare st.
Proof. apply totalPages_of_ge_1. Qed.

Lemma currentPage_range (st : AppState) :
  1 <= currentPage localeCompare st <= totalPages localeCompare st.
Proof. unfold currentPage. pose proof (totalPages_ge_1 st). lia. Qed.

Lemma paginated_lookup (st : AppState) (i : nat) :
  0 < pageSize st ->
  paginated localeCompare st !! i =
  if decide (Z.of_nat i < pageSize st)
  then sorted localeCompare st
         !! Z.to_nat ((currentPage localeCompare st - 1) * pageSize st + Z.of_nat i)
  else None.
Proof.
  intros Hp. unfold paginated. apply slice_lookup; [|assumption].
  pose proof (currentPage_range st). nia.
Qed.

Lemma slice_sublist {A : Type} (a b : Z) (l : list A) : slice a b l `sublist_of` l.
Proof.
  unfold slice. etransitivity; [apply sublist_take|apply sublist_drop].
Qed.

Lemma paginated_elem (st : AppState) (e : Earning) :
  e ∈ paginated localeCompare st -> e ∈ earnings st.
Proof.
  intros H. unfold paginated in H.
  eapply elem_of_sublist in H; [|apply slice_sublist].
  unfold sorted in H. by rewrite sorted_of_Array_sort, Array_sort_perm in H.
Qed.

End AppFacts.

(** ** Sessions *)

Lemma Forall_filter_id_ne {A : Type} (P : A -> Prop) (k : string)
    (f : A -> string) (l : list A) :
  Forall P l -> Forall P (filter (fun x => f x ≠ k) l).
Proof.
  intros H. eapply Forall_impl with (P := P); [|auto].
  apply Forall_forall. intros x Hx. apply list_elem_of_filter in Hx as [_ Hx].
  rewrite Forall_forall in H. auto.
Qed.


Section Session.
Variable localeCompare : string -> string -> float.
Variable parseFloat : string -> float.
Variable toString : float -> string.

Local Abbreviation step := (step localeCompare parseFloat toString).
Local Abbreviation handle := (handle localeCompare parseFloat).
Local Abbreviation reachable := (reachable localeCompare parseFloat toString).
Local Abbreviation totalPages := (totalPages localeCompare).

Lemma page_effect_earnings a b : earnings (page_effect a b) = earnings b.
Proof. unfold page_effect. by destruct (decide _). Qed.

Lemma page_effect_pageSize a b : pageSize (page_effect a b) = pageSize b.
Proof. unfold page_effect. by destruct (decide _). Qed.

Lemma page_effect_editing a b : editing (page_effect a b) = editing b.
Proof. unfold page_effect. by destruct (decide _). Qed.

Lemma page_effect_sort a b :
  sortBy (page_effect a b) = sortBy b /\ sortDir (page_effect a b) = sortDir b.
Proof. unfold page_effect. by destruct (decide _). Qed.

Lemma step_app clock ev ui :
  app (step clock ev ui) = page_effect (app ui) (app (fst (handle clock ev ui))).
Proof. reflexivity. Qed.

(** The form's handler, by cases on its test. *)
Lemma handleAddOrSave_cases clock editing_ f :
  let parsed := parseFloat (f_amount f) in
  (Number.isNaN parsed || (parsed <=? 0)%float = true /\
   handleAddOrSave parseFloat clock editing_ f = (f, [Alert_alert invalid_amount_alert]))
  \/
  (Number.isNaN parsed || (parsed <=? 0)%float = false /\
   exists payload,
     handleAddOrSave parseFloat clock editing_ f = (reset clock, [onAdd payload]) /\
     id payload = match editing_ with
                  | Some e => id e
                  | None => Str.ofInteger (now clock)
                  end /\
     amount payload = parsed /\ date payload = f_date f /\
     note payload = Str.trim (f_note f)).
Proof.
  intros parsed. unfold handleAddOrSave. fold parsed.
  destruct (Number.isNaN parsed || (parsed <=? 0)%float); [left|right]; split; try reflexivity.
  eexists. split; [reflexivity|]. simpl. auto.
Qed.

Lemma step_ledger clock ev ui :
  ledger_step (earnings (app ui)) (earnings (app (step clock ev ui))).
Proof.
  rewrite step_app, page_effect_earnings.
  destruct ev; simpl; try (by left).
  - destruct (handleAddOrSave_cases clock (editing (app ui)) (form ui))
      as [[_ ->]|(Hok & payload & -> & _ & Hamount & _)]; simpl; [by left|].
    right; left. exists payload. split; [|reflexivity].
    rewrite Hamount. by apply accepted_positive.
  - right; right. by eexists.
  - left. unfold toggleSort. by destruct (decide _).
Qed.

Lemma step_pageSize clock ev ui :
  page_size_ok (pageSize (app ui)) -> page_size_ok (pageSize (app (step clock ev ui))).
Proof.
  intros H. rewrite step_app, page_effect_pageSize.
  destruct ev; simpl; try assumption.
  - destruct (handleAddOrSave_cases clock (editing (app ui)) (form ui))
      as [[_ ->]|(_ & payload & -> & _)]; simpl; assumption.
  - unfold toggleSort. destruct (decide _); simpl; assumption.
  - destruct b; unfold page_size_ok; simpl; auto.
Qed.

Lemma positive_amounts_step l l' :
  ledger_step l l' -> positive_amounts l -> positive_amounts l'.
Proof.
  unfold positive_amounts. intros [->|[(item & Hitem & ->)|(k & ->)]] H; [assumption| |].
  - unfold handleAdd_update. destruct (existsb _ l).
    + apply Forall_fmap. eapply Forall_impl; [exact H|].
      intros p Hp. simpl. by case_bool_decide.
    + by constructor.
  - by apply Forall_filter_id_ne.
Qed.

Lemma NoDup_step l l' : ledger_step l l' -> NoDup (ids l) -> NoDup (ids l').
Proof.
  intros [->|[(item & _ & ->)|(k & ->)]] H; [assumption| |].
  - by apply handleAdd_update_NoDup.
  - by apply handleDelete_update_NoDup.
Qed.

Lemma totalPages_same_deps (a b : AppState) :
  page_deps a = page_deps b -> totalPages a = totalPages b.
Proof.
  unfold page_deps. intros H. rewrite !totalPages_deps. congruence.
Qed.

(** The page stays on an existing page. *)
Lemma step_page clock ev ui :
  1 <= page (app ui) <= totalPages (app ui) ->
  1 <= page (app (step clock ev ui)) <= totalPages (app (step clock ev ui)).
Proof.
  intros H. rewrite step_app.
  set (st := app ui) in *. set (st1 := app (fst (handle clock ev ui))).
  assert (page_deps st = page_deps st1 -> 1 <= page st1 <= totalPages st1) as Hsame.
  { intros Hdeps. rewrite <- (totalPages_same_deps _ _ Hdeps).
    subst st1. destruct ev; simpl in *; try exact H.
    - destruct (handleAddOrSave_cases clock (editing (app ui)) (form ui))
        as [[_ ->]|(_ & payload & -> & _)]; simpl; exact H.
    - revert Hdeps. unfold toggleSort, page_deps. fold st.
      destruct (decide (sortBy st = by_)); simpl; [|congruence].
      destruct (sortDir st); simpl; intros [=].
    - pose proof (totalPages_ge_1 localeCompare st). lia.
    - fold st. lia.
    - fold st. lia. }
  unfold page_effect. destruct (decide (page_deps st = page_deps st1)) as [E|E]; [auto|].
  simpl. pose proof (totalPages_ge_1 localeCompare (setPage (fun _ => 1) st1)). lia.
Qed.

Lemma reachable_invariant ui :
  reachable ui ->
  page_size_ok (pageSize (app ui)) /\
  1 <= page (app ui) <= totalPages (app ui) /\
  NoDup (ids (earnings (app ui))) /\
  positive_amounts (earnings (app ui)).
Proof.
  induction 1 as [clock|clock ev ui Hr (Hsize & Hpage & Hnd & Hpos)].
  - repeat split; simpl; try lia; try constructor.
    + unfold page_size_ok. auto.
    + apply (totalPages_ge_1 localeCompare App_init).
  - pose proof (step_ledger clock ev ui) as Hl.
    repeat split.
    + by apply step_pageSize.
    + by apply step_page.
    + by apply step_page.
    + eapply NoDup_step; eassumption.
    + eapply positive_amounts_step; eassumption.
Qed.

(** On positive amounts [e.amount || 0] is [e.amount]. *)
Lemma total_sum_from (acc : float) (l : list Earning) :
  positive_amounts l ->
  fold_left (fun s e => (s + Number.ToNumber (Number.or (amount e) 0))%float) l acc =
  fold_left (fun s e => (s + amount e)%float) l acc.
Proof.
  revert acc. induction l as [|e l IH]; intros acc H; simpl; [reflexivity|].
  inversion H as [|? ? He Hl]; subst.
  unfold Number.ToNumber at 2. rewrite (positive_truthy _ He). by apply IH.
Qed.

Lemma total_sum_amounts (l : list Earning) :
  positive_amounts l -> total l = sum_amounts l.
Proof. apply total_sum_from. Qed.

Lemma paginated_positive (st : AppState) :
  positive_amounts (earnings st) -> positive_amounts (paginated localeCompare st).
Proof.
  unfold positive_amounts. rewrite !Forall_forall.
  intros H e He. apply H. eapply paginated_elem, He.
Qed.

End Session.

(** ** The collation of the examples *)

Section CodeUnitOrder.

Lemma ascii_compare_N (a b : ascii) :
  Ascii.compare a b = (N_of_ascii a ?= N_of_ascii b)%N.
Proof. reflexivity. Qed.

Lemma string_compare_le_trans (a b c : string) :
  String.compare a b <> Gt -> String.compare b c <> Gt -> String.compare a c <> Gt.
Proof.
  revert b c. induction a as [|x a IH]; intros [|y b] [|z c]; simpl; try congruence.
  rewrite !ascii_compare_N.
  destruct (N.compare_spec (N_of_ascii x) (N_of_ascii y)) as [Exy|Hxy|Hxy];
    destruct (N.compare_spec (N_of_ascii y) (N_of_ascii z)) as [Eyz|Hyz|Hyz];
    try congruence.
  - rewrite Exy, Eyz, N.compare_refl. apply IH.
  - rewrite Exy. intros _ _. apply N.compare_lt_iff in Hyz. rewrite Hyz. discriminate.
  - rewrite <- Eyz. intros _ _. apply N.compare_lt_iff in Hxy. rewrite Hxy. discriminate.
  - intros _ _. assert (N_of_ascii x < N_of_ascii z)%N as H by lia.
    apply N.compare_lt_iff in H. rewrite H. discriminate.
Qed.

Lemma sgn_codeunit (a b : string) :
  Number.sgn (DecimalReader.localeCompare a b) = String.compare a b.
Proof. unfold DecimalReader.localeCompare. destruct (String.compare a b); reflexivity. Qed.

Lemma codeunit_collation : ConsistentComparator DecimalReader.localeCompare.
Proof.
  split.
  - intros a b. rewrite !sgn_codeunit. apply String.compare_antisym.
  - intros a b c. rewrite !sgn_codeunit. apply string_compare_le_trans.
Qed.

End CodeUnitOrder.

Lemma run_reachable localeCompare parseFloat toString events ui :
  reachable localeCompare parseFloat toString ui ->
  reachable localeCompare parseFloat toString (run localeCompare parseFloat toString events ui).
Proof.
  revert ui. induction events as [|[clock ev] events IH]; intros ui H; simpl; [exact H|].
  apply IH. by constructor.
Qed.

Lemma demo_reachable events :
  reachable DecimalReader.localeCompare DecimalReader.parseFloat DecimalReader.toString
    (Demo.run events Demo.init).
Proof. apply run_reachable. constructor. Qed.

(** ** The scenarios of the specification *)

Example scenario_first_entry :
  Demo.totalText (Demo.run (Demo.add_entry 1 "1200" "2024-01-05") Demo.init) = "1200.00".
Proof. vm_compute. reflexivity. Qed.

Example scenario_second_entry :
  Demo.totalText Demo.two_entries = "2050.00" /\
  date <$> Demo.rows Demo.two_entries = ["2024-01-06"; "2024-01-05"].
Proof. vm_compute. split; reflexivity. Qed.

Example scenario_edit_first_entry :
  let ui := Demo.run [(Demo.clock 3, PressEdit (mkEarning "1" 1200 "2024-01-05" ""));
                      (Demo.clock 3, ChangeAmount "300");
                      (Demo.clock 4, PressAddOrSave)] Demo.two_entries in
  Demo.totalText ui = "1150.00" /\ ids (earnings (app ui)) = ["2"; "1"].
Proof. vm_compute. split; reflexivity. Qed.

Example scenario_delete_first_entry :
  let ui := Demo.run [(Demo.clock 3, PressEdit (mkEarning "1" 1200 "2024-01-05" ""));
                      (Demo.clock 3, ChangeAmount "300");
                      (Demo.clock 4, PressAddOrSave);
                      (Demo.clock 5, ConfirmDelete "1")] Demo.two_entries in
  Demo.totalText ui = "850.00" /\ length (Demo.rows ui) = 1%nat.
Proof. vm_compute. split; reflexivity. Qed.

Example scenario_twelve_entries :
  let third := Demo.run [(Demo.clock 20, PressNext); (Demo.clock 20, PressNext)]
                 Demo.twelve_entries in
  totalPages DecimalReader.localeCompare (app Demo.twelve_entries) = 3 /\
  ids (Demo.rows Demo.twelve_entries) = ["12"; "11"; "10"; "9"; "8"] /\
  currentPage DecimalReader.localeCompare (app third) = 3 /\
  ids (Demo.rows third) = ["2"; "1"].
Proof. vm_compute. repeat split; reflexivity. Qed.

Example scenario_delete_down_to_four :
  let third := Demo.run [(Demo.clock 20, PressNext); (Demo.clock 20, PressNext)]
                 Demo.twelve_entries in
  let four := Demo.run [(Demo.clock 21, ConfirmDelete "1"); (Demo.clock 21, ConfirmDelete "2");
                        (Demo.clock 21, ConfirmDelete "3"); (Demo.clock 21, ConfirmDelete "4");
                        (Demo.clock 21, ConfirmDelete "5"); (Demo.clock 21, ConfirmDelete "6");
                        (Demo.clock 21, ConfirmDelete "7"); (Demo.clock 21, ConfirmDelete "8")]
                third in
  currentPage DecimalReader.localeCompare (app four) = 1 /\
  totalPages DecimalReader.localeCompare (app four) = 1 /\
  ids (Demo.rows four) = ["12"; "11"; "10"; "9"].
Proof. vm_compute. repeat split; reflexivity. Qed.

Example parseFloat_examples :
  DecimalReader.parseFloat <$> ["1200"; " 12.5abc"; ".5"; "-5"; "1e-400"] =
  [1200%float; 12.5%float; 0.5%float; (-5)%float; 0%float] /\
  Number.isNaN <$> (DecimalReader.parseFloat <$> ["abc"; ""; "."; "e5"]) =
  [true; true; true; true].
Proof. vm_compute. split; reflexivity. Qed.

(** * Part III: the claims *)

(** C1. An incoming record whose id is already in the ledger replaces, at
    its position, every record of that id (the length and the other records
    stay as they are); a record whose id is absent is placed in front.  A
    submit of the form, whether [editing] holds a record (Save) or not (Add),
    passes its record through this one rule, in the extended variant as in
    the basic one. *)
Theorem C1_reconcile_replaces_in_place_or_prepends :
  forall (item : Earning) (prev : list Earning),
    (id item ∈ ids prev ->
       length (handleAdd_update item prev) = length prev /\
       forall (i : nat) (p : Earning),
         prev !! i = Some p ->
         handleAdd_update item prev !! i =
         Some (if decide (id p = id item) then item else p))
    /\ (id item ∉ ids prev ->
          handleAdd_update item prev = item :: prev /\
          length (handleAdd_update item prev) = S (length prev))
    /\ (forall localeCompare parseFloat toString clock ui payload,
          snd (handleAddOrSave parseFloat clock (editing (app ui)) (form ui)) =
            [onAdd payload] ->
          earnings (app (step localeCompare parseFloat toString clock PressAddOrSave ui)) =
          handleAdd_update payload (earnings (app ui)))
    /\ (forall st : Basic.AppState,
          Basic.earnings (Basic.handleAdd item st) = handleAdd_update item (Basic.earnings st)).
Proof.
  intros item prev. split; [|split; [|split; [|reflexivity]]].
  - intros Hin. rewrite handleAdd_update_present by assumption. split.
    + apply length_fmap.
    + intros i p Hp. rewrite list_lookup_fmap, Hp. simpl. f_equal.
      case_bool_decide; destruct (decide _); congruence.
  - intros Hout. rewrite handleAdd_update_absent by assumption. auto.
  - intros localeCompare parseFloat toString clock ui payload Hcalls.
    rewrite step_app, page_effect_earnings. simpl.
    destruct (handleAddOrSave_cases parseFloat clock (editing (app ui)) (form ui))
      as [[_ E]|(_ & payload' & E & _)]; rewrite E in Hcalls |- *; simpl in *.
    + discriminate.
    + congruence.
Qed.

Lemma C1_witness :
  handleAdd_update (mkEarning "1" 300 "2024-01-05" "") (earnings (app Demo.two_entries))
    !! 1%nat = Some (mkEarning "1" 300 "2024-01-05" "").
Proof.
  refine (proj2 (proj1 (C1_reconcile_replaces_in_place_or_prepends
    (mkEarning "1" 300 "2024-01-05" "") (earnings (app Demo.two_entries))) _)
    1%nat (mkEarning "1" 1200 "2024-01-05" "") _).
  - by_evaluation.
  - vm_compute. reflexivity.
Defined.

(** C2. When the amount text parses to NaN or to a value that is not
    positive, the submit calls the alert and nothing else: no record goes to
    the owner, the owner's state and the form are as before.  For any other
    amount text exactly one record is emitted, with the parsed amount. *)
Theorem C2_invalid_amount_emits_nothing :
  forall localeCompare parseFloat toString clock ui,
    let parsed := parseFloat (f_amount (form ui)) in
    let calls := snd (handleAddOrSave parseFloat clock (editing (app ui)) (form ui)) in
    let next := step localeCompare parseFloat toString clock PressAddOrSave ui in
    let alerts := snd (handle localeCompare parseFloat clock PressAddOrSave ui) in
    (Number.isNaN parsed = true \/ (parsed <=? 0)%float = true ->
       calls = [Alert_alert invalid_amount_alert] /\
       (forall payload, onAdd payload ∉ calls) /\
       alerts = [invalid_amount_alert] /\
       app next = app ui /\ form next = form ui)
    /\ (Number.isNaN parsed = false /\ (parsed <=? 0)%float = false ->
          exists payload,
            calls = [onAdd payload] /\ amount payload = parsed /\ alerts = []).
Proof.
  intros localeCompare parseFloat toString clock ui parsed calls next alerts.
  subst calls next alerts. unfold step, effects. simpl.
  destruct (handleAddOrSave_cases parseFloat clock (editing (app ui)) (form ui))
    as [[Hbad E]|(Hok & payload & E & _ & Hamount & _)]; fold parsed in Hbad || fold parsed in Hok;
    rewrite E; simpl.
  - split.
    + intros _. repeat split.
      * intros payload Hin. apply list_elem_of_singleton in Hin. discriminate.
      * unfold page_effect. rewrite decide_True by reflexivity. by destruct ui as [[] ?].
      * by rewrite decide_True.
    + intros [Hn Hle]. rewrite Hn, Hle in Hbad. discriminate.
  - split.
    + intros [Hn|Hle]; [rewrite Hn in Hok|rewrite Hle, orb_true_r in Hok]; discriminate.
    + intros _. exists payload. auto.
Qed.

Lemma C2_witness :
  app (Demo.step (Demo.clock 3) PressAddOrSave
         (Demo.run [(Demo.clock 3, ChangeAmount "-5")] Demo.two_entries)) =
  app (Demo.run [(Demo.clock 3, ChangeAmount "-5")] Demo.two_entries).
Proof.
  refine (proj1 (proj2 (proj2 (proj2 (proj1 (C2_invalid_amount_emits_nothing
    DecimalReader.localeCompare DecimalReader.parseFloat DecimalReader.toString
    (Demo.clock 3) (Demo.run [(Demo.clock 3, ChangeAmount "-5")] Demo.two_entries)) _))))).
  right. vm_compute. reflexivity.
Defined.

(** C3, as stated, fails: two valid submits with [editing = null] on the
    same reading of the clock produce the same id, and the second replaces
    the record of the first; the ledger gains nothing. *)
Lemma C3_counterexample_same_clock_reading :
  let ui := Demo.run (Demo.add_entry 5 "10" "2024-01-05" ++ [(Demo.clock 5, ChangeAmount "20")])
              Demo.init in
  let ui' := Demo.step (Demo.clock 5) PressAddOrSave ui in
  editing (app ui) = None /\
  snd (handleAddOrSave DecimalReader.parseFloat (Demo.clock 5) (editing (app ui)) (form ui)) =
    [onAdd (mkEarning "5" 20 "2024-01-01" "")] /\
  ids (earnings (app ui)) = ["5"] /\
  length (earnings (app ui')) = length (earnings (app ui)) /\
  ~ (exists r, earnings (app ui') = r :: earnings (app ui)).
Proof.
  vm_compute. repeat split. intros [r H]. discriminate H.
Qed.

(** C3, amended.  A valid submit with [editing = null], at a reading of the
    clock whose decimal text is not an id of the ledger, adds exactly one
    record, in front; its id is that text, hence distinct from every id
    already present. *)
Theorem C3_add_prepends_one_record_with_the_clock_id :
  forall localeCompare parseFloat toString clock ui,
    editing (app ui) = None ->
    Number.isNaN (parseFloat (f_amount (form ui))) = false ->
    (parseFloat (f_amount (form ui)) <=? 0)%float = false ->
    Str.ofInteger (now clock) ∉ ids (earnings (app ui)) ->
    exists r,
      earnings (app (step localeCompare parseFloat toString clock PressAddOrSave ui)) =
        r :: earnings (app ui) /\
      id r = Str.ofInteger (now clock) /\
      (id r ∉ ids (earnings (app ui))) /\
      amount r = parseFloat (f_amount (form ui)) /\
      date r = f_date (form ui) /\
      note r = Str.trim (f_note (form ui)).
Proof.
  intros localeCompare parseFloat toString clock ui Hed Hn Hle Hfresh.
  rewrite step_app, page_effect_earnings. simpl.
  destruct (handleAddOrSave_cases parseFloat clock (editing (app ui)) (form ui))
    as [[Hbad _]|(_ & payload & E & Hid & Hamount & Hdate & Hnote)].
  - rewrite Hn, Hle in Hbad. discriminate.
  - rewrite E. simpl. rewrite Hed in Hid. exists payload.
    rewrite handleAdd_update_absent by (rewrite Hid; exact Hfresh).
    rewrite Hid. repeat split; assumption.
Qed.

Lemma C3_witness :
  exists r,
    earnings (app (Demo.step (Demo.clock 3) PressAddOrSave
                     (Demo.run [(Demo.clock 3, ChangeAmount "5")] Demo.two_entries))) =
      r :: earnings (app (Demo.run [(Demo.clock 3, ChangeAmount "5")] Demo.two_entries)) /\
    id r = "3" /\
    (id r ∉ ids (earnings (app (Demo.run [(Demo.clock 3, ChangeAmount "5")] Demo.two_entries)))) /\
    amount r = 5%float /\ date r = "2024-01-01" /\ note r = "".
Proof.
  refine (C3_add_prepends_one_record_with_the_clock_id
    DecimalReader.localeCompare DecimalReader.parseFloat DecimalReader.toString
    (Demo.clock 3) (Demo.run [(Demo.clock 3, ChangeAmount "5")] Demo.two_entries) _ _ _ _).
  - vm_compute. reflexivity.
  - vm_compute. reflexivity.
  - vm_compute. reflexivity.
  - by_evaluation.
Defined.

(** C4. No two records of the ledger share an id: this holds of the ledger
    that any sequence of reconciliations and deletions builds from the empty
    one, each of the two operations preserves it, and it holds on every
    screen of a session. *)
Theorem C4_ids_are_unique :
  (forall ops : list LedgerOp, NoDup (ids (run_ops ops)))
  /\ (forall item l, NoDup (ids l) -> NoDup (ids (handleAdd_update item l)))
  /\ (forall k l, NoDup (ids l) -> NoDup (ids (handleDelete_update k l)))
  /\ (forall localeCompare parseFloat toString ui,
        reachable localeCompare parseFloat toString ui -> NoDup (ids (earnings (app ui)))).
Proof.
  split; [|split; [|split]].
  - intros ops. unfold run_ops. apply fold_ops_NoDup. constructor.
  - apply handleAdd_update_NoDup.
  - apply handleDelete_update_NoDup.
  - intros localeCompare parseFloat toString ui Hr.
    by apply reachable_invariant in Hr as (_ & _ & Hnd & _).
Qed.

Lemma C4_witness :
  NoDup (ids (handleAdd_update (mkEarning "1" 300 "2024-01-05" "")
                (earnings (app Demo.two_entries)))).
Proof.
  refine (proj1 (proj2 C4_ids_are_unique) _ _ _).
  by_evaluation.
Defined.

(** C5, as stated, fails on its last clause: in the extended variant the
    view is given the current page, not the full ledger.  With six entries of
    amount 1 and five rows to a page the header reads 5.00 while the ledger
    sums to 6.00. *)
Lemma C5_counterexample_total_of_the_page :
  length (earnings (app Demo.six_entries)) = 6%nat /\
  length (Demo.rows Demo.six_entries) = 5%nat /\
  Demo.totalText Demo.six_entries = "5.00" /\
  Number.toFixed DecimalReader.toString (sum_amounts (earnings (app Demo.six_entries))) 2 =
    "6.00".
Proof. vm_compute. repeat split; reflexivity. Qed.

(** C5, amended.  After any sequence of inserts, updates and deletes the
    total that the view displays is the sum of [amount] over the sequence of
    earnings it is given, formatted to two decimal places.  In the extended
    variant that sequence is the current page of the sorted ledger; in the
    basic variant it is the full ledger. *)
Theorem C5_total_is_the_sum_over_the_sequence_given :
  (forall toString (l : list Earning),
     positive_amounts l ->
     totalText toString l = Number.toFixed toString (sum_amounts l) 2)
  /\ (forall localeCompare parseFloat toString ui,
        reachable localeCompare parseFloat toString ui ->
        App_totalText localeCompare toString (app ui) =
        Number.toFixed toString (sum_amounts (paginated localeCompare (app ui))) 2)
  /\ (forall toString (st : Basic.AppState),
        positive_amounts (Basic.earnings st) ->
        Basic.App_totalText toString st =
        Number.toFixed toString (sum_amounts (Basic.earnings st)) 2).
Proof.
  assert (forall toString l, positive_amounts l ->
            totalText toString l = Number.toFixed toString (sum_amounts l) 2) as Hsum.
  { intros toString l H. unfold totalText. by rewrite total_sum_amounts. }
  split; [exact Hsum|split].
  - intros localeCompare parseFloat toString ui Hr.
    apply reachable_invariant in Hr as (_ & _ & _ & Hpos).
    unfold App_totalText. apply Hsum. by apply paginated_positive.
  - intros toString st H. unfold Basic.App_totalText. by apply Hsum.
Qed.

Lemma C5_witness :
  App_totalText DecimalReader.localeCompare DecimalReader.toString (app Demo.six_entries) =
  Number.toFixed DecimalReader.toString
    (sum_amounts (paginated DecimalReader.localeCompare (app Demo.six_entries))) 2.
Proof.
  refine (proj1 (proj2 C5_total_is_the_sum_over_the_sequence_given)
    DecimalReader.localeCompare DecimalReader.parseFloat DecimalReader.toString
    Demo.six_entries _).
  apply demo_reachable.
Defined.

(** C6. For a collation that is a consistent comparator and every state of
    the owner, whatever its ledger, its active sort key and its direction:
    the view [sorted] that the owner derives, which the page is cut from, is
    a permutation of the ledger, ordered by the active key in the active
    direction; the records that compare equal on the key keep the relative
    order they have in the ledger, and the view is the only list that is so
    ordered and keeps it; it is the same for every state with that ledger,
    key and direction; the memo leaves it in a new array object, and the
    array object of the ledger, like every object but the new one, is as it
    was. *)
Theorem C6_sorted_view_is_a_stable_sort_of_a_copy :
  forall (localeCompare : string -> string -> float),
    ConsistentComparator localeCompare ->
    forall (σ : Store) (r : positive) (st : AppState),
      σ !! r = Some (earnings st) ->
      let view := sorted localeCompare st in
      let '(arr, σ') := sorted_memo localeCompare r (sortBy st) (sortDir st) σ in
      σ' !! arr = Some view /\
      view ≡ₚ earnings st /\
      StronglySorted (ordered localeCompare (sortBy st) (sortDir st)) view /\
      (forall x : Earning,
         filter (same_key localeCompare (sortBy st) x) view =
         filter (same_key localeCompare (sortBy st) x) (earnings st)) /\
      (forall v : list Earning,
         StronglySorted (ordered localeCompare (sortBy st) (sortDir st)) v ->
         (forall x, filter (same_key localeCompare (sortBy st) x) v =
                    filter (same_key localeCompare (sortBy st) x) (earnings st)) ->
         v = view) /\
      (forall st' : AppState,
         earnings st' = earnings st -> sortBy st' = sortBy st -> sortDir st' = sortDir st ->
         sorted localeCompare st' = view) /\
      σ' !! r = Some (earnings st) /\
      (forall r', r' <> arr -> σ' !! r' = σ !! r').
Proof.
  intros localeCompare Hc σ r st Hr view.
  pose proof (sorted_memo_store localeCompare r (sortBy st) (sortDir st) σ (earnings st) Hr)
    as Hstore.
  destruct (sorted_memo localeCompare r (sortBy st) (sortDir st) σ) as [arr σ'].
  destruct Hstore as (Hfresh & Harr & Hframe).
  subst view. unfold sorted.
  split; [exact Harr|]. split; [apply sorted_of_perm|].
  split; [by apply sorted_of_ordered|]. split; [intros x; by apply sorted_of_stable|].
  split; [intros v; by apply sorted_of_unique|].
  split; [intros st' -> -> ->; reflexivity|].
  split; [|exact Hframe].
  rewrite Hframe; [exact Hr|]. intros ->. congruence.
Qed.

Lemma C6_witness :
  let st := app (Demo.run [(Demo.clock 3, PressSort by_amount)] Demo.two_entries) in
  let view := sorted DecimalReader.localeCompare st in
  (earnings st = [mkEarning "2" 850 "2024-01-06" ""; mkEarning "1" 1200 "2024-01-05" ""] /\
   sortBy st = by_amount /\ sortDir st = desc /\
   view = [mkEarning "1" 1200 "2024-01-05" ""; mkEarning "2" 850 "2024-01-06" ""]) /\
  let '(arr, σ') := sorted_memo DecimalReader.localeCompare 1%positive (sortBy st) (sortDir st)
                      {[ 1%positive := earnings st ]} in
  σ' !! arr = Some view /\
  view ≡ₚ earnings st /\
  StronglySorted (ordered DecimalReader.localeCompare (sortBy st) (sortDir st)) view /\
  (forall x : Earning,
     filter (same_key DecimalReader.localeCompare (sortBy st) x) view =
     filter (same_key DecimalReader.localeCompare (sortBy st) x) (earnings st)) /\
  (forall v : list Earning,
     StronglySorted (ordered DecimalReader.localeCompare (sortBy st) (sortDir st)) v ->
     (forall x, filter (same_key DecimalReader.localeCompare (sortBy st) x) v =
                filter (same_key DecimalReader.localeCompare (sortBy st) x) (earnings st)) ->
     v = view) /\
  (forall st' : AppState,
     earnings st' = earnings st -> sortBy st' = sortBy st -> sortDir st' = sortDir st ->
     sorted DecimalReader.localeCompare st' = view) /\
  σ' !! 1%positive = Some (earnings st) /\
  (forall r', r' <> arr -> σ' !! r' = ({[ 1%positive := earnings st ]} : Store) !! r').
Proof.
  split; [vm_compute; repeat split; reflexivity|].
  refine (C6_sorted_view_is_a_stable_sort_of_a_copy DecimalReader.localeCompare
    codeunit_collation
    {[ 1%positive := earnings (app (Demo.run [(Demo.clock 3, PressSort by_amount)]
                                             Demo.two_entries)) ]}
    1%positive
    (app (Demo.run [(Demo.clock 3, PressSort by_amount)] Demo.two_entries)) _).
  apply lookup_singleton_eq.
Defined.

(** C7. The number of pages is the ceiling of the quotient of the ledger
    size by the page size, and 1 at least.  The current page that is
    displayed is always one of the pages; and on every screen of a session,
    whatever the inserts, updates, deletes, sort changes, page-size changes
    and Prev or Next presses before it, so is the page cell itself. *)
Theorem C7_pages_are_the_ceiling_and_the_page_is_one_of_them :
  (forall n p : Z,
     0 <= n -> 0 < p ->
     let c := Math_ceil (inject_Z n / inject_Z p) in
     (c - 1) * p < n <= c * p /\ totalPages_of n p = Z.max 1 c)
  /\ (forall localeCompare (st : AppState),
        totalPages localeCompare st =
          totalPages_of (Z.of_nat (length (earnings st))) (pageSize st) /\
        1 <= currentPage localeCompare st <= totalPages localeCompare st)
  /\ (forall localeCompare parseFloat toString ui,
        reachable localeCompare parseFloat toString ui ->
        page_size_ok (pageSize (app ui)) /\
        1 <= page (app ui) <= totalPages localeCompare (app ui) /\
        currentPage localeCompare (app ui) = page (app ui)).
Proof.
  split; [|split].
  - intros n p Hn Hp c. split; [by apply Math_ceil_bounds|reflexivity].
  - intros localeCompare st. split; [apply totalPages_deps|apply currentPage_range].
  - intros localeCompare parseFloat toString ui Hr.
    apply reachable_invariant in Hr as (Hsize & Hpage & _).
    split; [exact Hsize|]. split; [exact Hpage|]. unfold currentPage. lia.
Qed.

Lemma C7_witness :
  let third := Demo.run [(Demo.clock 20, PressNext); (Demo.clock 20, PressNext);
                         (Demo.clock 20, PressNext)] Demo.twelve_entries in
  page_size_ok (pageSize (app third)) /\
  1 <= page (app third) <= totalPages DecimalReader.localeCompare (app third) /\
  currentPage DecimalReader.localeCompare (app third) = page (app third).
Proof.
  refine (proj2 (proj2 C7_pages_are_the_ceiling_and_the_page_is_one_of_them)
    DecimalReader.localeCompare DecimalReader.parseFloat DecimalReader.toString _ _).
  apply run_reachable, (demo_reachable _).
Defined.

(** C8. For every state with a positive page size, the displayed page
    holds, in the sorted order, exactly the elements of the sorted list whose
    index lies in [(page - 1) * pageSize, page * pageSize), [page] being the
    current page: its [i]-th row is the element of index
    [(page - 1) * pageSize + i] for [i < pageSize], and there is no other. *)
Theorem C8_page_slice :
  forall localeCompare (st : AppState),
    0 < pageSize st ->
    forall i : nat,
      paginated localeCompare st !! i =
      if decide (Z.of_nat i < pageSize st)
      then sorted localeCompare st
             !! Z.to_nat ((currentPage localeCompare st - 1) * pageSize st + Z.of_nat i)
      else None.
Proof. intros localeCompare st Hp i. by apply paginated_lookup. Qed.

Lemma C8_witness :
  let third := Demo.run [(Demo.clock 20, PressNext); (Demo.clock 20, PressNext)]
                 Demo.twelve_entries in
  paginated DecimalReader.localeCompare (app third) !! 1%nat =
  if decide (Z.of_nat 1 < pageSize (app third))
  then sorted DecimalReader.localeCompare (app third)
         !! Z.to_nat ((currentPage DecimalReader.localeCompare (app third) - 1)
                      * pageSize (app third) + Z.of_nat 1)
  else None.
Proof.
  refine (C8_page_slice DecimalReader.localeCompare _ _ 1%nat).
  vm_compute. reflexivity.
Defined.

(** C9. Toggling a key makes it the active key.  When it was not the
    active key the direction becomes descending; when it was, the direction
    flips between ascending and descending.  Nothing else changes. *)
Theorem C9_toggleSort :
  forall (by_ : SortBy) (st : AppState),
    sortBy (toggleSort by_ st) = by_ /\
    sortDir (toggleSort by_ st) =
      (if decide (sortBy st = by_)
       then match sortDir st with asc => desc | desc => asc end
       else desc) /\
    earnings (toggleSort by_ st) = earnings st /\
    editing (toggleSort by_ st) = editing st /\
    page (toggleSort by_ st) = page st /\
    pageSize (toggleSort by_ st) = pageSize st.
Proof.
  intros by_ st. unfold toggleSort.
  destruct (decide (sortBy st = by_)) as [E|E]; simpl; repeat split; try assumption.
  destruct (sortDir st); reflexivity.
Qed.

(** C10. Deleting an id keeps the other records, in their order, and drops
    the records of that id and nothing else; the other cells of the owner are
    as before.  When no record has the id the ledger is unchanged. *)
Theorem C10_delete_removes_exactly_the_id :
  forall (k : string) (l : list Earning),
    handleDelete_update k l `sublist_of` l /\
    (forall x, x ∈ handleDelete_update k l <-> x ∈ l /\ id x <> k) /\
    length l =
      (length (handleDelete_update k l) + length (filter (fun x => id x = k) l))%nat /\
    (k ∉ ids l -> handleDelete_update k l = l) /\
    (forall st : AppState,
       earnings (handleDelete k st) = handleDelete_update k (earnings st) /\
       editing (handleDelete k st) = editing st /\
       page (handleDelete k st) = page st /\
       pageSize (handleDelete k st) = pageSize st /\
       sortBy (handleDelete k st) = sortBy st /\
       sortDir (handleDelete k st) = sortDir st) /\
    (forall st : Basic.AppState,
       Basic.earnings (Basic.handleDelete_confirmed k st) =
         handleDelete_update k (Basic.earnings st) /\
       Basic.editing (Basic.handleDelete_confirmed k st) = Basic.editing st).
Proof.
  intros k l. split; [apply handleDelete_update_sublist|].
  split.
  { intros x. unfold handleDelete_update. rewrite list_elem_of_filter. tauto. }
  split; [apply handleDelete_update_count|].
  split; [apply handleDelete_update_absent|].
  split; intros st; repeat split.
Qed.

Lemma C10_witness :
  handleDelete_update "7" (earnings (app Demo.two_entries)) = earnings (app Demo.two_entries).
Proof.
  refine (proj1 (proj2 (proj2 (proj2 (C10_delete_removes_exactly_the_id "7"
    (earnings (app Demo.two_entries)))))) _).
  by_evaluation.
Defined.

(** * Part IV: further properties of the code *)

(** ** The ledger's two operations together *)

Section LedgerAlgebra.

Lemma handleAdd_update_elem (item : Earning) (l : list Earning) :
  item ∈ handleAdd_update item l.
Proof.
  destruct (decide (id item ∈ ids l)) as [Hin|Hout].
  - rewrite handleAdd_update_present by assumption.
    unfold ids in Hin. apply list_elem_of_fmap in Hin as (p & Hp & Hin).
    apply list_elem_of_fmap. exists p. split; [|exact Hin].
    by rewrite bool_decide_eq_true_2.
  - rewrite handleAdd_update_absent by assumption. left.
Qed.

Lemma handleAdd_update_ids (item : Earning) (l : list Earning) (k : string) :
  k ∈ ids (handleAdd_update item l) -> k = id item \/ k ∈ ids l.
Proof.
  destruct (decide (id item ∈ ids l)) as [Hin|Hout].
  - rewrite handleAdd_update_ids_present by assumption. auto.
  - rewrite handleAdd_update_absent by assumption. simpl.
    rewrite elem_of_cons. auto.
Qed.

Lemma filter_none {A : Type} (P : A -> Prop) `{forall x, Decision (P x)} (l : list A) :
  (forall x, x ∈ l -> ~ P x) -> filter P l = [].
Proof.
  induction l as [|x l IH]; intros H'; [reflexivity|].
  rewrite filter_cons_False by (apply H'; left).
  apply IH. intros y Hy. apply H'. by right.
Qed.

(** X1. Reconciling the same record twice is reconciling it once. *)
Theorem X1_reconcile_idempotent :
  forall (item : Earning) (l : list Earning),
    handleAdd_update item (handleAdd_update item l) = handleAdd_update item l.
Proof.
  intros item l.
  assert (id item ∈ ids (handleAdd_update item l)) as Hin.
  { unfold ids. apply list_elem_of_fmap. exists item. split; [reflexivity|].
    apply handleAdd_update_elem. }
  rewrite (handleAdd_update_present item (handleAdd_update item l)) by exact Hin.
  destruct (decide (id item ∈ ids l)) as [Hl|Hl].
  - rewrite handleAdd_update_present by assumption.
    rewrite <- list_fmap_compose. apply list_fmap_ext. intros i p _. simpl.
    destruct (bool_decide (id p = id item)) eqn:E; [|by rewrite E].
    by rewrite bool_decide_eq_true_2.
  - rewrite handleAdd_update_absent by assumption. rewrite fmap_cons.
    rewrite bool_decide_eq_true_2 by reflexivity. f_equal.
    rewrite <- (list_fmap_id l) at 2. apply list_fmap_ext. intros i p Hp. simpl.
    rewrite bool_decide_eq_false_2; [reflexivity|].
    intros E. apply Hl. unfold ids. apply list_elem_of_fmap. exists p.
    split; [congruence|]. eapply list_elem_of_lookup_2, Hp.
Qed.

(** X2. After a reconciliation the ledger holds the incoming record, and
    every record of the ledger that has its id is that record; when the ids
    were unique before, exactly one record has the id. *)
Theorem X2_reconcile_then_lookup :
  forall (item : Earning) (l : list Earning),
    item ∈ handleAdd_update item l /\
    (forall p, p ∈ handleAdd_update item l -> id p = id item -> p = item) /\
    (NoDup (ids l) ->
     length (filter (fun p => id p = id item) (handleAdd_update item l)) = 1%nat).
Proof.
  intros item l. split; [apply handleAdd_update_elem|]. split.
  - intros p Hp Hid. destruct (decide (id item ∈ ids l)) as [Hin|Hout].
    + rewrite handleAdd_update_present in Hp by assumption.
      apply list_elem_of_fmap in Hp as (q & -> & _).
      destruct (bool_decide (id q = id item)) eqn:E; [reflexivity|].
      apply bool_decide_eq_false in E. contradiction.
    + rewrite handleAdd_update_absent in Hp by assumption.
      apply elem_of_cons in Hp as [->|Hp]; [reflexivity|].
      exfalso. apply Hout. unfold ids. apply list_elem_of_fmap. eauto.
  - intros Hnd. apply (handleAdd_update_NoDup item) in Hnd.
    pose proof (handleAdd_update_elem item l) as Hin.
    revert Hnd Hin. generalize (handleAdd_update item l). intros l'.
    induction l' as [|p l' IH]; intros Hnd Hin; [by apply elem_of_nil in Hin|].
    simpl in Hnd. apply NoDup_cons in Hnd as [Hp Hnd].
    rewrite filter_cons. destruct (decide (id p = id item)) as [E|E].
    + simpl. f_equal. rewrite filter_none; [reflexivity|].
      intros q Hq Eq. apply Hp.
      unfold ids. apply list_elem_of_fmap. exists q. split; [congruence|exact Hq].
    + apply elem_of_cons in Hin as [->|Hin]; [contradiction|]. by apply IH.
Qed.

(** X3. Adding a record whose id is new and then deleting that id gives the
    ledger back. *)
Theorem X3_add_then_delete :
  forall (item : Earning) (l : list Earning),
    id item ∉ ids l ->
    handleDelete_update (id item) (handleAdd_update item l) = l.
Proof.
  intros item l Hout. rewrite handleAdd_update_absent by assumption.
  unfold handleDelete_update. rewrite filter_cons_False by (intros H; by apply H).
  by apply handleDelete_update_absent.
Qed.

Lemma X3_witness :
  handleDelete_update "9"
    (handleAdd_update (mkEarning "9" 5 "2024-01-07" "") (earnings (app Demo.two_entries))) =
  earnings (app Demo.two_entries).
Proof.
  refine (X3_add_then_delete (mkEarning "9" 5 "2024-01-07" "")
            (earnings (app Demo.two_entries)) _).
  by_evaluation.
Defined.

(** X4. Deleting leaves no record of the id; deleting an id twice is
    deleting it once; deletions of two ids can be done in either order. *)
Theorem X4_delete_idempotent_and_commutes :
  forall (j k : string) (l : list Earning),
    (k ∉ ids (handleDelete_update k l)) /\
    handleDelete_update k (handleDelete_update k l) = handleDelete_update k l /\
    handleDelete_update j (handleDelete_update k l) =
    handleDelete_update k (handleDelete_update j l).
Proof.
  intros j k l.
  assert (k ∉ ids (handleDelete_update k l)) as Hgone.
  { unfold ids, handleDelete_update. intros H.
    apply list_elem_of_fmap in H as (p & Hp & Hin).
    apply list_elem_of_filter in Hin as [Hne _]. congruence. }
  split; [exact Hgone|]. split.
  - by apply handleDelete_update_absent.
  - unfold handleDelete_update. rewrite !list_filter_filter.
    apply list_filter_iff. intros x. tauto.
Qed.

End LedgerAlgebra.

(** ** More on the sorted view *)

Section SortedViews.
Variable localeCompare : string -> string -> float.
Hypothesis collation : ConsistentComparator localeCompare.

(** Comparators of the same signs sort alike. *)
Lemma Array_sort_ext {A : Type} (c1 c2 : A -> A -> float) (l : list A) :
  (forall x y, Number.sgn (c1 x y) = Number.sgn (c2 x y)) ->
  Array_sort c1 l = Array_sort c2 l.
Proof.
  intros Hs.
  assert (forall x y, (0 <? c1 x y)%float = (0 <? c2 x y)%float) as Ht.
  { intros x y. pose proof (sgn_Gt (c1 x y)) as H1. pose proof (sgn_Gt (c2 x y)) as H2.
    rewrite Hs in H1.
    destruct (0 <? c1 x y)%float, (0 <? c2 x y)%float; try reflexivity.
    - symmetry. apply H2, H1. reflexivity.
    - apply H1, H2. reflexivity. }
  induction l as [|x l IH]; simpl; [reflexivity|]. rewrite IH.
  generalize (Array_sort c2 l). intros s.
  induction s as [|y s IHs]; simpl; [reflexivity|]. by rewrite Ht, IHs.
Qed.

Lemma sgn_collation_refl (d : string) : Number.sgn (localeCompare d d) = Eq.
Proof.
  pose proof (cc_antisym _ collation d d) as H.
  destruct (Number.sgn (localeCompare d d)); simpl in H; congruence.
Qed.

(** X5. Sorting the sorted view again, by the same key and direction,
    changes nothing. *)
Theorem X5_sorted_view_is_a_fixed_point :
  forall (l : list Earning) (by_ : SortBy) (dir : SortDir),
    sorted_of localeCompare (sorted_of localeCompare l by_ dir) by_ dir =
    sorted_of localeCompare l by_ dir.
Proof.
  intros l by_ dir. symmetry. apply sorted_of_unique; [exact collation| |reflexivity].
  by apply sorted_of_ordered.
Qed.

(** X6. The rows of the basic variant, sorted by
    [b.date.localeCompare(a.date)], are the view that the extended variant
    shows in its initial setting, by date and descending: the same records
    in the same order. *)
Theorem X6_basic_rows_are_the_date_descending_view :
  forall (st : Basic.AppState),
    Basic.rows localeCompare st =
    sorted_of localeCompare (Basic.earnings st) (sortBy App_init) (sortDir App_init) /\
    Basic.rows localeCompare st ≡ₚ Basic.earnings st.
Proof.
  intros st. assert (Basic.rows localeCompare st =
    sorted_of localeCompare (Basic.earnings st) by_date desc) as E.
  { unfold Basic.rows. simpl. apply Array_sort_ext. intros a b.
    rewrite sgn_compareDate. destruct (decide (date a = date b)) as [Ed|Ed]; [|reflexivity].
    rewrite Ed. apply sgn_collation_refl. }
  split; [exact E|]. rewrite E. apply sorted_of_perm.
Qed.

End SortedViews.

Lemma X5_witness :
  sorted_of DecimalReader.localeCompare
    (sorted_of DecimalReader.localeCompare (earnings (app Demo.two_entries)) by_amount asc)
    by_amount asc =
  sorted_of DecimalReader.localeCompare (earnings (app Demo.two_entries)) by_amount asc.
Proof.
  exact (X5_sorted_view_is_a_fixed_point DecimalReader.localeCompare codeunit_collation
           (earnings (app Demo.two_entries)) by_amount asc).
Defined.

Lemma X6_witness :
  Basic.rows DecimalReader.localeCompare
    (Basic.mkApp (earnings (app Demo.two_entries)) None) =
  sorted_of DecimalReader.localeCompare (earnings (app Demo.two_entries))
    (sortBy App_init) (sortDir App_init) /\
  Basic.rows DecimalReader.localeCompare
    (Basic.mkApp (earnings (app Demo.two_entries)) None) ≡ₚ earnings (app Demo.two_entries).
Proof.
  exact (X6_basic_rows_are_the_date_descending_view DecimalReader.localeCompare
           codeunit_collation (Basic.mkApp (earnings (app Demo.two_entries)) None)).
Defined.

(** ** More on pages *)

Section PageStructure.
Variable localeCompare : string -> string -> float.

Lemma slice_take_drop {A : Type} (start size : Z) (l : list A) :
  0 <= start -> 0 < size ->
  slice start (start + size) l = take (Z.to_nat size) (drop (Z.to_nat start) l).
Proof.
  intros Hs Hz. apply list_eq. intros i. rewrite slice_lookup by assumption.
  destruct (decide (Z.of_nat i < size)) as [Hi|Hi].
  - rewrite lookup_take_lt by lia. rewrite lookup_drop. f_equal. lia.
  - symmetry. apply lookup_ge_None. rewrite length_take. lia.
Qed.

Lemma chunks_concat {A : Type} (size k : nat) (l : list A) :
  concat ((fun i => take size (drop (i * size) l)) <$> seq 0 k) = take (k * size) l.
Proof.
  induction k as [|k IH]; [reflexivity|].
  rewrite seq_S, fmap_app, concat_app, IH. simpl.
  rewrite app_nil_r, take_take_drop. f_equal. lia.
Qed.

Lemma currentPage_setPage (p : Z) (st : AppState) :
  1 <= p <= totalPages localeCompare st ->
  currentPage localeCompare (setPage (fun _ => p) st) = p.
Proof.
  intros H. unfold currentPage.
  change (totalPages localeCompare (setPage (fun _ => p) st))
    with (totalPages localeCompare st).
  simpl. lia.
Qed.

(** The rows of page [p], for [p] one of the pages. *)
Lemma paginated_setPage (p : Z) (st : AppState) :
  0 < pageSize st -> 1 <= p <= totalPages localeCompare st ->
  paginated localeCompare (setPage (fun _ => p) st) =
  take (Z.to_nat (pageSize st))
    (drop (Z.to_nat ((p - 1) * pageSize st)) (sorted localeCompare st)).
Proof.
  intros Hsize Hp. unfold paginated. rewrite currentPage_setPage by assumption.
  change (pageSize (setPage (fun _ => p) st)) with (pageSize st).
  change (sorted localeCompare (setPage (fun _ => p) st)) with (sorted localeCompare st).
  apply slice_take_drop; [nia|assumption].
Qed.

(** The last page starts inside the list, unless the list is empty. *)
Lemma last_page_start (st : AppState) :
  0 < pageSize st ->
  let n := Z.of_nat (length (earnings st)) in
  n <= totalPages localeCompare st * pageSize st /\
  (totalPages localeCompare st - 1) * pageSize st <= n /\
  (0 < n -> (totalPages localeCompare st - 1) * pageSize st < n).
Proof.
  intros Hsize n. rewrite totalPages_deps. fold n. unfold totalPages_of.
  pose proof (Math_ceil_bounds n (pageSize st) Hsize) as Hc. simpl in Hc.
  set (c := Math_ceil (inject_Z n / inject_Z (pageSize st))) in *.
  assert (0 <= n) by lia.
  assert (0 <= c) by nia.
  destruct (decide (c = 0)) as [E|E].
  - rewrite E in *. rewrite Z.max_l by lia. split; [lia|]. split; lia.
  - rewrite Z.max_r by lia. split; [lia|]. split; lia.
Qed.

(** X7. The pages, from the first to the last, laid end to end are the
    sorted list: every record is on exactly one page, in the sorted order;
    and the footer's count of items, the length of the sorted list, is the
    number of records of the ledger. *)
Theorem X7_pages_partition_the_sorted_list :
  forall (st : AppState),
    0 < pageSize st ->
    concat ((fun p : nat => paginated localeCompare (setPage (fun _ => Z.of_nat p) st))
              <$> seq 1 (Z.to_nat (totalPages localeCompare st))) =
    sorted localeCompare st /\
    length (sorted localeCompare st) = length (earnings st).
Proof.
  intros st Hsize. split; [|apply sorted_length].
  pose proof (totalPages_ge_1 localeCompare st) as Htp.
  rewrite <- fmap_S_seq, <- list_fmap_compose.
  rewrite (list_fmap_ext _
    (fun i => take (Z.to_nat (pageSize st))
                (drop (i * Z.to_nat (pageSize st)) (sorted localeCompare st)))).
  - rewrite chunks_concat. apply take_ge. rewrite sorted_length.
    pose proof (last_page_start st Hsize) as [Hle _]. simpl in Hle. nia.
  - intros i p Hp. apply lookup_seq in Hp as [-> Hi]. simpl.
    rewrite paginated_setPage by lia. f_equal. f_equal. nia.
Qed.


End PageStructure.

Lemma X7_witness :
  concat ((fun p : nat => paginated DecimalReader.localeCompare
                            (setPage (fun _ => Z.of_nat p) (app Demo.twelve_entries)))
            <$> seq 1 (Z.to_nat (totalPages DecimalReader.localeCompare
                                   (app Demo.twelve_entries)))) =
  sorted DecimalReader.localeCompare (app Demo.twelve_entries) /\
  length (sorted DecimalReader.localeCompare (app Demo.twelve_entries)) =
  length (earnings (app Demo.twelve_entries)).
Proof.
  refine (X7_pages_partition_the_sorted_list DecimalReader.localeCompare
            (app Demo.twelve_entries) _).
  vm_compute. reflexivity.
Defined.


(** ** The screen, event by event *)

Section Screen.
Variable localeCompare : string -> string -> float.
Variable parseFloat : string -> float.
Variable toString : float -> string.

Lemma page_effect_same (a b : AppState) :
  page_deps a = page_deps b -> page_effect a b = b.
Proof. intros H. unfold page_effect. by rewrite decide_True. Qed.

Lemma page_effect_diff (a b : AppState) :
  page_deps a <> page_deps b -> page_effect a b = setPage (fun _ => 1) b.
Proof. intros H. unfold page_effect. by rewrite decide_False. Qed.

Lemma positive_accepted (parsed : float) :
  (0 <? parsed)%float = true -> Number.isNaN parsed || (parsed <=? 0)%float = false.
Proof.
  intros H. destruct (ltb_true_not_nan _ _ H) as [H0 Hp].
  rewrite Hp. simpl. rewrite leb_rank by assumption.
  rewrite ltb_rank in H by assumption. apply Z.ltb_lt in H. apply Z.leb_gt. exact H.
Qed.

Lemma count_id_NoDup (k : string) (l : list Earning) :
  NoDup (ids l) -> k ∈ ids l -> length (filter (fun x => id x = k) l) = 1%nat.
Proof.
  induction l as [|p l IH]; intros Hnd Hin; [by apply elem_of_nil in Hin|].
  simpl in Hnd, Hin. apply NoDup_cons in Hnd as [Hp Hnd].
  rewrite filter_cons. destruct (decide (id p = k)) as [E|E].
  - simpl. f_equal. rewrite filter_none; [reflexivity|].
    intros q Hq Eq. apply Hp. unfold ids. apply list_elem_of_fmap.
    exists q. split; [congruence|exact Hq].
  - apply elem_of_cons in Hin as [->|Hin]; [contradiction|]. by apply IH.
Qed.

(** X9. The form lets through exactly the amounts that parse to a number
    above zero: its test, NaN or not above zero, fails for these and for no
    other. *)
Theorem X9_form_accepts_exactly_the_positive_amounts :
  forall (clock : Clock) (editing_ : option Earning) (f : FormState),
    (exists payload,
       snd (handleAddOrSave parseFloat clock editing_ f) = [onAdd payload])
    <-> (0 <? parseFloat (f_amount f))%float = true.
Proof.
  intros clock editing_ f.
  destruct (handleAddOrSave_cases parseFloat clock editing_ f)
    as [[Hbad E]|(Hok & payload & E & _)]; rewrite E; simpl; split.
  - intros [payload H]. discriminate.
  - intros H. apply positive_accepted in H. congruence.
  - intros _. by apply accepted_positive.
  - intros _. by exists payload.
Qed.

(** X10. After a submit that is let through the owner is out of edit mode
    and the form is reset: amount and note empty, the date today's. *)
Theorem X10_valid_submit_clears_edit_mode_and_form :
  forall (clock : Clock) (ui : UI),
    (0 <? parseFloat (f_amount (form ui)))%float = true ->
    editing (app (step localeCompare parseFloat toString clock PressAddOrSave ui)) = None /\
    form (step localeCompare parseFloat toString clock PressAddOrSave ui) =
      {| f_amount := ""; f_date := today clock; f_note := "" |}.
Proof.
  intros clock ui Hpos. apply positive_accepted in Hpos.
  unfold step, effects. simpl.
  destruct (handleAddOrSave_cases parseFloat clock (editing (app ui)) (form ui))
    as [[Hbad _]|(_ & payload & E & _)]; [congruence|].
  rewrite E. simpl. rewrite page_effect_editing. simpl. split; [reflexivity|].
  destruct (decide (editing (app ui) = None)); reflexivity.
Qed.

(** X11. Save, in edit mode on a record whose id is in the ledger, replaces
    the records of that id where they stand by the record read from the form;
    the ids, the page, the page size and the sort setting are as before: the
    page is not reset. *)
Theorem X11_save_replaces_in_place_and_keeps_the_page :
  forall (clock : Clock) (ui : UI) (r : Earning),
    editing (app ui) = Some r ->
    id r ∈ ids (earnings (app ui)) ->
    (0 <? parseFloat (f_amount (form ui)))%float = true ->
    let saved := {| id := id r; amount := parseFloat (f_amount (form ui));
                    date := f_date (form ui); note := Str.trim (f_note (form ui)) |} in
    let next := app (step localeCompare parseFloat toString clock PressAddOrSave ui) in
    ids (earnings next) = ids (earnings (app ui)) /\
    (forall (i : nat) (p : Earning),
       earnings (app ui) !! i = Some p ->
       earnings next !! i = Some (if decide (id p = id r) then saved else p)) /\
    page next = page (app ui) /\ pageSize next = pageSize (app ui) /\
    sortBy next = sortBy (app ui) /\ sortDir next = sortDir (app ui).
Proof.
  intros clock ui r Hed Hin Hpos saved next. apply positive_accepted in Hpos.
  subst next. rewrite step_app. simpl.
  destruct (handleAddOrSave_cases parseFloat clock (editing (app ui)) (form ui))
    as [[Hbad _]|(_ & payload & E & Hid & Hamount & Hdate & Hnote)]; [congruence|].
  rewrite E. simpl. rewrite Hed in Hid.
  assert (payload = saved) as ->.
  { destruct payload. simpl in *. subst saved. congruence. }
  assert (id saved ∈ ids (earnings (app ui))) as Hin' by exact Hin.
  pose proof (handleAdd_update_ids_present saved _ Hin') as Hids.
  rewrite page_effect_same.
  - simpl. split; [exact Hids|]. split; [|auto].
    intros i p Hp. rewrite handleAdd_update_present by exact Hin'.
    rewrite list_lookup_fmap, Hp. simpl. f_equal.
    change (id saved) with (id r). case_bool_decide; destruct (decide _); congruence.
  - unfold page_deps, handleAdd. simpl. f_equal. f_equal. f_equal.
    apply (f_equal length) in Hids. unfold ids in Hids.
    by rewrite !length_fmap in Hids.
Qed.

(** X12. Save, in edit mode on a record whose id has left the ledger (it
    was deleted while under edit), puts the record read from the form in
    front, under the old id, and the page goes back to 1. *)
Theorem X12_save_of_a_deleted_record_prepends_it :
  forall (clock : Clock) (ui : UI) (r : Earning),
    editing (app ui) = Some r ->
    id r ∉ ids (earnings (app ui)) ->
    (0 <? parseFloat (f_amount (form ui)))%float = true ->
    let saved := {| id := id r; amount := parseFloat (f_amount (form ui));
                    date := f_date (form ui); note := Str.trim (f_note (form ui)) |} in
    let next := app (step localeCompare parseFloat toString clock PressAddOrSave ui) in
    earnings next = saved :: earnings (app ui) /\ page next = 1.
Proof.
  intros clock ui r Hed Hout Hpos saved next. apply positive_accepted in Hpos.
  subst next. rewrite step_app. simpl.
  destruct (handleAddOrSave_cases parseFloat clock (editing (app ui)) (form ui))
    as [[Hbad _]|(_ & payload & E & Hid & Hamount & Hdate & Hnote)]; [congruence|].
  rewrite E. simpl. rewrite Hed in Hid.
  assert (payload = saved) as ->.
  { destruct payload. simpl in *. subst saved. congruence. }
  assert (handleAdd_update saved (earnings (app ui)) = saved :: earnings (app ui)) as Hadd
    by (by apply handleAdd_update_absent).
  rewrite page_effect_diff.
  - simpl. by rewrite Hadd.
  - unfold page_deps, handleAdd. simpl. rewrite Hadd. simpl. intros [=]. lia.
Qed.

(** X13. Cancel leaves edit mode and resets the form, and touches neither
    the ledger nor the page, page size or sort setting; a second Cancel
    changes nothing that one Cancel (at the second reading of the clock)
    would not have done. *)
Theorem X13_cancel_is_idempotent :
  forall (c1 c2 : Clock) (ui : UI),
    app (step localeCompare parseFloat toString c1 PressCancel ui) =
      setEditing None (app ui) /\
    form (step localeCompare parseFloat toString c1 PressCancel ui) =
      {| f_amount := ""; f_date := today c1; f_note := "" |} /\
    step localeCompare parseFloat toString c2 PressCancel
      (step localeCompare parseFloat toString c1 PressCancel ui) =
    step localeCompare parseFloat toString c2 PressCancel ui.
Proof.
  intros c1 c2 ui.
  assert (forall c u, step localeCompare parseFloat toString c PressCancel u =
            {| app := setEditing None (app u); form := reset c |}) as Hstep.
  { intros c u. unfold step, effects. simpl. rewrite page_effect_same by reflexivity.
    f_equal. destruct (decide _); reflexivity. }
  rewrite !Hstep. simpl. repeat split.
Qed.

(** X14. Edit puts the record under edit and leaves it in the ledger: the
    ledger, the page, the page size and the sort setting are as before.
    Unless that record was under edit already, the form shows its amount (as
    text), its date and its note. *)
Theorem X14_edit_keeps_the_ledger_and_prefills :
  forall (clock : Clock) (ui : UI) (item : Earning),
    app (step localeCompare parseFloat toString clock (PressEdit item) ui) =
      setEditing (Some item) (app ui) /\
    form (step localeCompare parseFloat toString clock (PressEdit item) ui) =
      (if decide (editing (app ui) = Some item) then form ui
       else {| f_amount := toString (amount item); f_date := date item;
               f_note := note item |}).
Proof.
  intros clock ui item. unfold step, effects. simpl.
  rewrite page_effect_same by reflexivity. split; reflexivity.
Qed.

(** X15. Confirming the deletion of an id that no record has leaves the
    whole screen as it is.  Confirming the deletion of an id of a ledger with
    unique ids takes exactly one record away and puts the page back to 1;
    edit mode and the form are untouched, even when the record deleted is the
    one under edit. *)
Theorem X15_confirmed_delete_on_the_screen :
  forall (clock : Clock) (ui : UI) (k : string),
    (k ∉ ids (earnings (app ui)) ->
       step localeCompare parseFloat toString clock (ConfirmDelete k) ui = ui) /\
    (k ∈ ids (earnings (app ui)) -> NoDup (ids (earnings (app ui))) ->
       let next := step localeCompare parseFloat toString clock (ConfirmDelete k) ui in
       length (earnings (app ui)) = S (length (earnings (app next))) /\
       (k ∉ ids (earnings (app next))) /\
       page (app next) = 1 /\
       editing (app next) = editing (app ui) /\
       form next = form ui).
Proof.
  intros clock ui k. unfold step, effects. simpl. split.
  - intros Hout. unfold handleDelete, setEarnings. simpl.
    rewrite handleDelete_update_absent by assumption.
    rewrite page_effect_same by reflexivity. rewrite decide_True by reflexivity.
    by destruct ui as [[] ?].
  - intros Hin Hnd.
    pose proof (handleDelete_update_count k (earnings (app ui))) as Hcount.
    rewrite (count_id_NoDup k _ Hnd Hin) in Hcount.
    rewrite page_effect_diff.
    + simpl. rewrite decide_True by reflexivity. repeat split; [lia|].
      unfold ids, handleDelete_update. intros H.
      apply list_elem_of_fmap in H as (p & Hp & Hp').
      apply list_elem_of_filter in Hp' as [Hne _]. congruence.
    + unfold page_deps. simpl. intros [=]. lia.
Qed.

End Screen.

Lemma X10_witness :
  editing (app (Demo.step (Demo.clock 4) PressAddOrSave
     (Demo.run [(Demo.clock 3, PressEdit (mkEarning "1" 1200 "2024-01-05" ""));
                (Demo.clock 3, ChangeAmount "300")] Demo.two_entries))) = None /\
  form (Demo.step (Demo.clock 4) PressAddOrSave
     (Demo.run [(Demo.clock 3, PressEdit (mkEarning "1" 1200 "2024-01-05" ""));
                (Demo.clock 3, ChangeAmount "300")] Demo.two_entries)) =
    {| f_amount := ""; f_date := today (Demo.clock 4); f_note := "" |}.
Proof.
  refine (X10_valid_submit_clears_edit_mode_and_form DecimalReader.localeCompare
            DecimalReader.parseFloat DecimalReader.toString (Demo.clock 4) _ _).
  vm_compute. reflexivity.
Defined.

Lemma X11_witness :
  let ui := Demo.run [(Demo.clock 3, PressEdit (mkEarning "1" 1200 "2024-01-05" ""));
                      (Demo.clock 3, ChangeAmount "300")] Demo.two_entries in
  let saved := {| id := "1"; amount := DecimalReader.parseFloat (f_amount (form ui));
                  date := f_date (form ui); note := Str.trim (f_note (form ui)) |} in
  let next := app (Demo.step (Demo.clock 4) PressAddOrSave ui) in
  ids (earnings next) = ids (earnings (app ui)) /\
  (forall (i : nat) (p : Earning),
     earnings (app ui) !! i = Some p ->
     earnings next !! i = Some (if decide (id p = "1") then saved else p)) /\
  page next = page (app ui) /\ pageSize next = pageSize (app ui) /\
  sortBy next = sortBy (app ui) /\ sortDir next = sortDir (app ui).
Proof.
  refine (X11_save_replaces_in_place_and_keeps_the_page DecimalReader.localeCompare
            DecimalReader.parseFloat DecimalReader.toString (Demo.clock 4)
            (Demo.run [(Demo.clock 3, PressEdit (mkEarning "1" 1200 "2024-01-05" ""));
                       (Demo.clock 3, ChangeAmount "300")] Demo.two_entries)
            (mkEarning "1" 1200 "2024-01-05" "") _ _ _).
  - vm_compute. reflexivity.
  - by_evaluation.
  - vm_compute. reflexivity.
Defined.

Lemma X12_witness :
  let ui := Demo.run [(Demo.clock 3, PressEdit (mkEarning "1" 1200 "2024-01-05" ""));
                      (Demo.clock 3, ConfirmDelete "1");
                      (Demo.clock 3, ChangeAmount "300")] Demo.two_entries in
  let saved := {| id := "1"; amount := DecimalReader.parseFloat (f_amount (form ui));
                  date := f_date (form ui); note := Str.trim (f_note (form ui)) |} in
  let next := app (Demo.step (Demo.clock 4) PressAddOrSave ui) in
  earnings next = saved :: earnings (app ui) /\ page next = 1.
Proof.
  refine (X12_save_of_a_deleted_record_prepends_it DecimalReader.localeCompare
            DecimalReader.parseFloat DecimalReader.toString (Demo.clock 4)
            (Demo.run [(Demo.clock 3, PressEdit (mkEarning "1" 1200 "2024-01-05" ""));
                       (Demo.clock 3, ConfirmDelete "1");
                       (Demo.clock 3, ChangeAmount "300")] Demo.two_entries)
            (mkEarning "1" 1200 "2024-01-05" "") _ _ _).
  - vm_compute. reflexivity.
  - by_evaluation.
  - vm_compute. reflexivity.
Defined.

Lemma X15_witness :
  let next := Demo.step (Demo.clock 3) (ConfirmDelete "1") Demo.two_entries in
  length (earnings (app Demo.two_entries)) = S (length (earnings (app next))) /\
  ("1" ∉ ids (earnings (app next))) /\
  page (app next) = 1 /\
  editing (app next) = editing (app Demo.two_entries) /\
  form next = form Demo.two_entries.
Proof.
  refine (proj2 (X15_confirmed_delete_on_the_screen DecimalReader.localeCompare
            DecimalReader.parseFloat DecimalReader.toString (Demo.clock 3)
            Demo.two_entries "1") _ _); by_evaluation.
Defined.

(** ** Pages and sort settings, press by press *)

Section Presses.
Variable localeCompare : string -> string -> float.
Variable parseFloat : string -> float.
Variable toString : float -> string.

Lemma step_setPage_same_deps (clock : Clock) (ev : Event) (ui : UI) (f : Z -> Z) :
  fst (handle localeCompare parseFloat clock ev ui) =
    {| app := setPage f (app ui); form := form ui |} ->
  step localeCompare parseFloat toString clock ev ui =
    {| app := setPage f (app ui); form := form ui |}.
Proof.
  intros H. unfold step, effects. rewrite H. simpl.
  rewrite page_effect_same by reflexivity. by rewrite decide_True.
Qed.

(** X16. On a screen of a session, Next moves to the following page and
    stops at the last one, Prev moves back and stops at the first; neither
    touches anything but the page, and Prev undoes a Next that moved. *)
Theorem X16_next_and_prev :
  forall (clock clock' : Clock) (ui : UI),
    reachable localeCompare parseFloat toString ui ->
    let next := step localeCompare parseFloat toString clock PressNext ui in
    let prev := step localeCompare parseFloat toString clock PressPrev ui in
    next = {| app := setPage (fun p => Z.min (totalPages localeCompare (app ui)) (p + 1))
                       (app ui);
              form := form ui |} /\
    prev = {| app := setPage (fun p => Z.max 1 (p - 1)) (app ui); form := form ui |} /\
    (page (app ui) = totalPages localeCompare (app ui) -> next = ui) /\
    (page (app ui) = 1 -> prev = ui) /\
    (page (app ui) < totalPages localeCompare (app ui) ->
       page (app next) = page (app ui) + 1 /\
       step localeCompare parseFloat toString clock' PressPrev next = ui).
Proof.
  intros clock clock' ui Hr next prev.
  apply reachable_invariant in Hr as (_ & Hpage & _).
  assert (next = {| app := setPage (fun p => Z.min (totalPages localeCompare (app ui)) (p + 1))
                             (app ui); form := form ui |}) as Hnext
    by (by apply step_setPage_same_deps).
  assert (prev = {| app := setPage (fun p => Z.max 1 (p - 1)) (app ui); form := form ui |})
    as Hprev by (by apply step_setPage_same_deps).
  split; [exact Hnext|]. split; [exact Hprev|].
  clearbody next prev. subst next prev.
  generalize dependent (totalPages localeCompare (app ui)). intros tp Hpage.
  destruct ui as [[l e p size by_ dir] f]. unfold setPage. cbn in *.
  split; [|split].
  - intros E. do 2 f_equal. lia.
  - intros E. do 2 f_equal. lia.
  - intros Hlt. split; [lia|].
    rewrite (step_setPage_same_deps clock' PressPrev _ (fun p => Z.max 1 (p - 1)))
      by reflexivity.
    unfold setPage. cbn. do 2 f_equal. lia.
Qed.

Lemma step_PressSort (clock : Clock) (by_ : SortBy) (ui : UI) :
  step localeCompare parseFloat toString clock (PressSort by_) ui =
    {| app := setPage (fun _ => 1) (toggleSort by_ (app ui)); form := form ui |}.
Proof.
  unfold step, effects. cbn -[page_effect toggleSort].
  rewrite page_effect_diff.
  - f_equal. rewrite decide_True; [reflexivity|].
    unfold toggleSort. by destruct (decide _).
  - unfold page_deps, toggleSort.
    destruct (decide (sortBy (app ui) = by_)); cbn; [|congruence].
    destruct (sortDir (app ui)); cbn; intros [=].
Qed.

(** X17. Every press of a sort button and every press of a page-size
    button puts the page back to 1, and the page size pressed is the page
    size set.  Two presses of the same sort button leave that key active,
    with the direction it had when it was the active key before, and
    ascending when it was not. *)
Theorem X17_sort_and_page_size_presses :
  forall (clock clock' : Clock) (ui : UI) (by_ : SortBy) (b : PageSizeButton),
    page (app (step localeCompare parseFloat toString clock (PressSort by_) ui)) = 1 /\
    page (app (step localeCompare parseFloat toString clock (PressPageSize b) ui)) = 1 /\
    pageSize (app (step localeCompare parseFloat toString clock (PressPageSize b) ui)) =
      button_size b /\
    sortBy (app (step localeCompare parseFloat toString clock' (PressSort by_)
                   (step localeCompare parseFloat toString clock (PressSort by_) ui))) = by_ /\
    sortDir (app (step localeCompare parseFloat toString clock' (PressSort by_)
                   (step localeCompare parseFloat toString clock (PressSort by_) ui))) =
      (if decide (sortBy (app ui) = by_) then sortDir (app ui) else asc) /\
    earnings (app (step localeCompare parseFloat toString clock' (PressSort by_)
                   (step localeCompare parseFloat toString clock (PressSort by_) ui))) =
      earnings (app ui).
Proof.
  intros clock clock' ui by_ b.
  rewrite !step_PressSort.
  split; [reflexivity|]. split; [|split].
  - rewrite step_app. cbn. unfold page_effect. by destruct (decide _).
  - rewrite step_app, page_effect_pageSize. reflexivity.
  - cbn -[toggleSort]. destruct ui as [[l e p size by0 dir] f]. unfold toggleSort. cbn.
    destruct (decide (by0 = by_)) as [->|Hne]; cbn.
    + rewrite decide_True by reflexivity. cbn. repeat split. by destruct dir.
    + rewrite decide_True by reflexivity. cbn. repeat split.
Qed.

(** X18. On every screen of a session each amount of the ledger is a
    number above zero: not NaN, and read as itself by [amount || 0]. *)
Theorem X18_ledger_amounts_are_positive :
  forall (ui : UI),
    reachable localeCompare parseFloat toString ui ->
    forall e, e ∈ earnings (app ui) ->
      (0 <? amount e)%float = true /\
      Number.isNaN (amount e) = false /\
      Number.or (amount e) 0 = amount e.
Proof.
  intros ui Hr e He.
  apply reachable_invariant in Hr as (_ & _ & _ & Hpos).
  unfold positive_amounts in Hpos. rewrite Forall_forall in Hpos.
  specialize (Hpos e He). split; [exact Hpos|]. split.
  - by destruct (ltb_true_not_nan _ _ Hpos).
  - by apply positive_truthy.
Qed.

End Presses.

Lemma X16_witness :
  let ui := Demo.run [(Demo.clock 20, PressNext)] Demo.twelve_entries in
  let next := Demo.step (Demo.clock 21) PressNext ui in
  let prev := Demo.step (Demo.clock 21) PressPrev ui in
  next = {| app := setPage (fun p => Z.min (totalPages DecimalReader.localeCompare (app ui))
                                        (p + 1)) (app ui);
            form := form ui |} /\
  prev = {| app := setPage (fun p => Z.max 1 (p - 1)) (app ui); form := form ui |} /\
  (page (app ui) = totalPages DecimalReader.localeCompare (app ui) -> next = ui) /\
  (page (app ui) = 1 -> prev = ui) /\
  (page (app ui) < totalPages DecimalReader.localeCompare (app ui) ->
     page (app next) = page (app ui) + 1 /\
     Demo.step (Demo.clock 22) PressPrev next = ui).
Proof.
  refine (X16_next_and_prev DecimalReader.localeCompare DecimalReader.parseFloat
            DecimalReader.toString (Demo.clock 21) (Demo.clock 22)
            (Demo.run [(Demo.clock 20, PressNext)] Demo.twelve_entries) _).
  apply run_reachable, (demo_reachable _).
Defined.

Lemma X18_witness :
  (0 <? amount (mkEarning "1" 1200 "2024-01-05" ""))%float = true /\
  Number.isNaN (amount (mkEarning "1" 1200 "2024-01-05" "")) = false /\
  Number.or (amount (mkEarning "1" 1200 "2024-01-05" "")) 0 =
    amount (mkEarning "1" 1200 "2024-01-05" "").
Proof.
  refine (X18_ledger_amounts_are_positive DecimalReader.localeCompare
            DecimalReader.parseFloat DecimalReader.toString Demo.two_entries _
            (mkEarning "1" 1200 "2024-01-05" "") _).
  - apply demo_reachable.
  - vm_compute; apply list_elem_of_further, list_elem_of_here.
Defined.

(** ** Sessions in which the clock advances between presses of Add *)

Section TimedSessions.
Variable localeCompare : string -> string -> float.
Variable parseFloat : string -> float.
Variable toString : float -> string.

Lemma ids_before_weaken (t t' : Z) (st : AppState) :
  t <= t' -> ids_before t st -> ids_before t' st.
Proof.
  intros Hle [H1 H2]. split.
  - intros k Hk. destruct (H1 k Hk) as (n & Hn & E). exists n. split; [lia|exact E].
  - intros r Hr. destruct (H2 r Hr) as (n & Hn & E). exists n. split; [lia|exact E].
Qed.

(** In such a session every id of the ledger, and the id of the record
    being edited, is the text of a clock reading below the bound. *)
Lemma timed_session_ids_before (t : Z) (ui : UI) :
  timed_session localeCompare parseFloat toString t ui -> ids_before t (app ui).
Proof.
  induction 1 as [t clock|t clock ev ui Hs IH Hoff Htime].
  - split; cbn.
    + intros k Hk. by apply elem_of_nil in Hk.
    + intros r [=].
  - unfold ids_before.
    rewrite step_app, page_effect_earnings, page_effect_editing.
    destruct ev; cbn -[handleAddOrSave]; try exact IH.
    + specialize (Htime eq_refl).
      destruct (handleAddOrSave_cases parseFloat clock (editing (app ui)) (form ui))
        as [[_ ->]|(_ & payload & -> & Hid & _)]; cbn.
      * apply (ids_before_weaken t); [lia|exact IH].
      * destruct IH as [IHl IHe]. split; [|intros r [=]].
        intros k Hk. apply handleAdd_update_ids in Hk as [->|Hk].
        -- rewrite Hid. destruct (editing (app ui)) as [e|] eqn:He.
           ++ destruct (IHe e eq_refl) as (n & Hn & E). exists n. split; [lia|exact E].
           ++ exists (now clock). split; [lia|reflexivity].
        -- destruct (IHl k Hk) as (n & Hn & E). exists n. split; [lia|exact E].
    + destruct IH as [IHl IHe]. split; [exact IHl|intros r [=]].
    + destruct IH as [IHl IHe]. split; [exact IHl|]. intros r [= <-].
      apply IHl. cbn in Hoff. apply paginated_elem in Hoff.
      unfold ids. apply list_elem_of_fmap. by exists item.
    + destruct IH as [IHl IHe]. split; [|exact IHe].
      intros k' Hk'. apply IHl.
      unfold ids in *. apply list_elem_of_fmap in Hk' as (p & -> & Hp).
      apply list_elem_of_fmap. exists p. split; [reflexivity|].
      eapply elem_of_sublist; [exact Hp|apply handleDelete_update_sublist].
    + unfold toggleSort. destruct (decide _); exact IH.
Qed.

(** X19. In a session where the user presses only what the screen shows
    and every press of Add comes at a clock reading above that of the
    press of Add before it, a press of Add with a positive amount and
    nothing being edited puts one more record at the front of the ledger:
    its id is the text of the clock reading, no record had that id, the
    page is 1 afterwards, and the ids are still pairwise different. *)
Theorem X19_add_in_a_timed_session_is_fresh :
  forall (t : Z) (clock : Clock) (ui : UI),
    timed_session localeCompare parseFloat toString t ui ->
    t <= now clock ->
    editing (app ui) = None ->
    (0 <? parseFloat (f_amount (form ui)))%float = true ->
    exists r,
      earnings (app (step localeCompare parseFloat toString clock PressAddOrSave ui)) =
        r :: earnings (app ui) /\
      id r = Str.ofInteger (now clock) /\
      (id r ∉ ids (earnings (app ui))) /\
      amount r = parseFloat (f_amount (form ui)) /\
      page (app (step localeCompare parseFloat toString clock PressAddOrSave ui)) = 1 /\
      timed_session localeCompare parseFloat toString (now clock + 1)
        (step localeCompare parseFloat toString clock PressAddOrSave ui).
Proof.
  intros t clock ui Hs Ht Hed Hpos.
  pose proof (timed_session_ids_before t ui Hs) as [Hl _].
  assert (Str.ofInteger (now clock) ∉ ids (earnings (app ui))) as Hfresh.
  { intros Hin. destruct (Hl _ Hin) as (n & Hn & E).
    unfold Str.ofInteger in E. apply (inj pretty) in E. lia. }
  assert (timed_session localeCompare parseFloat toString (now clock + 1)
            (step localeCompare parseFloat toString clock PressAddOrSave ui)) as Hnext.
  { apply (timed_step localeCompare parseFloat toString t clock PressAddOrSave ui Hs);
      [exact I|intros _; exact Ht]. }
  rewrite !step_app, page_effect_earnings. cbn -[handleAddOrSave page_effect].
  destruct (handleAddOrSave_cases parseFloat clock (editing (app ui)) (form ui))
    as [[Hbad _]|(_ & payload & E & Hid & Hamount & _)].
  - rewrite (positive_accepted _ Hpos) in Hbad. discriminate.
  - rewrite E. cbn -[page_effect]. rewrite Hed in Hid.
    exists payload.
    rewrite handleAdd_update_absent by (rewrite Hid; exact Hfresh).
    rewrite Hid. repeat split; try assumption.
    rewrite page_effect_diff; [reflexivity|].
    unfold page_deps. cbn. intros Hd. apply (f_equal (fun d => fst (fst (fst d)))) in Hd. cbn in Hd. rewrite handleAdd_update_absent in Hd by (rewrite Hid; exact Hfresh). cbn in Hd. lia.
Qed.

End TimedSessions.

Lemma X19_witness :
  exists r,
    earnings (app (Demo.step (Demo.clock 3) PressAddOrSave
                     (Demo.run [(Demo.clock 3, ChangeAmount "5")] Demo.two_entries))) =
      r :: earnings (app (Demo.run [(Demo.clock 3, ChangeAmount "5")] Demo.two_entries)) /\
    id r = Str.ofInteger (now (Demo.clock 3)) /\
    (id r ∉ ids (earnings (app (Demo.run [(Demo.clock 3, ChangeAmount "5")]
                                         Demo.two_entries)))) /\
    amount r = DecimalReader.parseFloat
                 (f_amount (form (Demo.run [(Demo.clock 3, ChangeAmount "5")]
                                           Demo.two_entries))) /\
    page (app (Demo.step (Demo.clock 3) PressAddOrSave
                 (Demo.run [(Demo.clock 3, ChangeAmount "5")] Demo.two_entries))) = 1 /\
    timed_session DecimalReader.localeCompare DecimalReader.parseFloat DecimalReader.toString
      (now (Demo.clock 3) + 1)
      (Demo.step (Demo.clock 3) PressAddOrSave
         (Demo.run [(Demo.clock 3, ChangeAmount "5")] Demo.two_entries)).
Proof.
  refine (X19_add_in_a_timed_session_is_fresh
    DecimalReader.localeCompare DecimalReader.parseFloat DecimalReader.toString
    3 (Demo.clock 3) (Demo.run [(Demo.clock 3, ChangeAmount "5")] Demo.two_entries) _ _ _ _).
  - unfold Demo.run, run, Demo.two_entries, Demo.add_entry, Demo.init.
    cbn [foldl Datatypes.app].
    apply (timed_step _ _ _ 3 (Demo.clock 3) (ChangeAmount "5")); [|exact I|discriminate].
    apply (timed_step _ _ _ 2 (Demo.clock 2) PressAddOrSave); [|exact I|intros _; cbn; lia].
    apply (timed_step _ _ _ 2 (Demo.clock 2) (ChangeDate _)); [|exact I|discriminate].
    apply (timed_step _ _ _ 2 (Demo.clock 2) (ChangeAmount _)); [|exact I|discriminate].
    apply (timed_step _ _ _ 1 (Demo.clock 1) PressAddOrSave); [|exact I|intros _; cbn; lia].
    apply (timed_step _ _ _ 1 (Demo.clock 1) (ChangeDate _)); [|exact I|discriminate].
    apply (timed_step _ _ _ 1 (Demo.clock 1) (ChangeAmount _)); [|exact I|discriminate].
    apply timed_init.
  - cbn. lia.
  - vm_compute. reflexivity.
  - vm_compute. reflexivity.
Defined.

(** ** The rows and their keys *)

Section Keys.
Variable localeCompare : string -> string -> float.
Variable parseFloat : string -> float.
Variable toString : float -> string.

(** X20. The keys that [keyExtractor] gives the rows of the list are
    pairwise different: on the page of every screen of a session of the
    extended variant, and among the rows of the basic variant whenever the
    ids of its ledger are.  Every row on display is a record of the
    ledger. *)
Theorem X20_row_keys_are_unique :
  (forall ui : UI,
     reachable localeCompare parseFloat toString ui ->
     NoDup (ids (paginated localeCompare (app ui))) /\
     (forall e, e ∈ paginated localeCompare (app ui) -> e ∈ earnings (app ui))) /\
  (forall st : Basic.AppState,
     NoDup (ids (Basic.earnings st)) ->
     NoDup (ids (Basic.rows localeCompare st)) /\
     (forall e, e ∈ Basic.rows localeCompare st <-> e ∈ Basic.earnings st)).
Proof.
  split.
  - intros ui Hr. apply reachable_invariant in Hr as (_ & _ & Hnd & _). split.
    + assert (NoDup (ids (sorted localeCompare (app ui)))) as Hs.
      { unfold ids, sorted. by rewrite sorted_of_perm. }
      assert (ids (paginated localeCompare (app ui)) `sublist_of`
              ids (sorted localeCompare (app ui))) as Hsub
        by (unfold paginated, ids; apply fmap_sublist, slice_sublist).
      eapply sublist_NoDup; eassumption.
    + intros e. apply paginated_elem.
  - intros st Hnd. split.
    + unfold Basic.rows, ids. by rewrite Array_sort_perm.
    + intros e. unfold Basic.rows. by rewrite Array_sort_perm.
Qed.

End Keys.

Lemma X20_witness :
  NoDup (ids (paginated DecimalReader.localeCompare (app Demo.twelve_entries))) /\
  (forall e, e ∈ paginated DecimalReader.localeCompare (app Demo.twelve_entries) ->
             e ∈ earnings (app Demo.twelve_entries)).
Proof.
  refine (proj1 (X20_row_keys_are_unique DecimalReader.localeCompare
            DecimalReader.parseFloat DecimalReader.toString) Demo.twelve_entries _).
  apply demo_reachable.
Defined.

(** ** The two variants side by side *)

Section Variants.
Variable localeCompare : string -> string -> float.
Variable parseFloat : string -> float.
Variable toString : float -> string.

(** X21. The extended screen carries the basic one: on the ledger, the
    record being edited and the form, an event of the basic screen does in
    the extended variant what it does in the basic one, with the same
    alerts, whatever the page and the sort settings are; and the sort,
    page-size, Prev and Next buttons change none of the three. *)
Theorem X21_extended_screen_carries_the_basic_one :
  forall (clock : Clock) (ui : UI),
    (forall ev : BasicScreen.Event,
       basic_part (step localeCompare parseFloat toString clock (extended_event ev) ui) =
         BasicScreen.step parseFloat toString clock ev (basic_part ui) /\
       snd (handle localeCompare parseFloat clock (extended_event ev) ui) =
         snd (BasicScreen.handle parseFloat clock ev (basic_part ui))) /\
    (forall (by_ : SortBy) (b : PageSizeButton),
       basic_part (step localeCompare parseFloat toString clock (PressSort by_) ui) =
         basic_part ui /\
       basic_part (step localeCompare parseFloat toString clock (PressPageSize b) ui) =
         basic_part ui /\
       basic_part (step localeCompare parseFloat toString clock PressPrev ui) =
         basic_part ui /\
       basic_part (step localeCompare parseFloat toString clock PressNext ui) =
         basic_part ui).
Proof.
  intros clock ui.
  assert (forall u, basic_part (step localeCompare parseFloat toString clock PressPrev u) =
                    basic_part u /\
                    basic_part (step localeCompare parseFloat toString clock PressNext u) =
                    basic_part u) as Hmove.
  { intros u. unfold basic_part, step, effects. cbn.
    rewrite !page_effect_earnings, !page_effect_editing. cbn.
    rewrite !decide_True by reflexivity. done. }
  split.
  - intros ev. unfold basic_part, step, BasicScreen.step, effects, BasicScreen.effects.
    destruct ev; cbn -[handleAddOrSave];
      rewrite ?page_effect_earnings, ?page_effect_editing; cbn -[handleAddOrSave];
      try (split; reflexivity).
    destruct (handleAddOrSave_cases parseFloat clock (editing (app ui)) (form ui))
      as [[_ E]|(_ & payload & E & _)]; rewrite E; cbn;
      rewrite ?page_effect_earnings, ?page_effect_editing; cbn; split; reflexivity.
  - intros by_ b. split; [|split; [|exact (Hmove ui)]].
    + rewrite step_PressSort. unfold basic_part, toggleSort.
      by destruct (decide _).
    + unfold basic_part, step, effects. cbn.
      rewrite !page_effect_earnings, !page_effect_editing. cbn.
      by rewrite !decide_True by reflexivity.
Qed.

End Variants.

(** ** The two totals *)

Section Totals.
Variable toString : float -> string.

Lemma isNaN_nan (x : float) : Number.isNaN x = true -> Prim2SF x = S754_nan.
Proof.
  rewrite isNaN_spec. destruct (Prim2SF x); simpl; congruence.
Qed.

Lemma isNaN_add (x y : float) :
  Number.isNaN x = true \/ Number.isNaN y = true -> Number.isNaN (x + y)%float = true.
Proof.
  intros H. rewrite isNaN_spec, FloatAxioms.add_spec.
  destruct H as [H|H]; apply isNaN_nan in H; rewrite H.
  - reflexivity.
  - by destruct (Prim2SF x).
Qed.

Lemma sum_from_nan (l : list Earning) (acc : float) :
  Number.isNaN acc = true \/ (exists e, e ∈ l /\ Number.isNaN (amount e) = true) ->
  Number.isNaN (fold_left (fun s e => (s + amount e)%float) l acc) = true.
Proof.
  revert acc. induction l as [|x l IH]; intros acc H; simpl.
  - destruct H as [H|(e & He & _)]; [exact H|by apply elem_of_nil in He].
  - apply IH. destruct H as [H|(e & He & Hn)].
    + left. apply isNaN_add. by left.
    + apply elem_of_cons in He as [->|He].
      * left. apply isNaN_add. by right.
      * right. by exists e.
Qed.

Lemma total_from_falsy (l : list Earning) :
  Forall (fun e => Number.truthy (amount e) = false) l ->
  fold_left (fun s e => (s + Number.ToNumber (Number.or (amount e) 0))%float) l 0%float =
    0%float.
Proof.
  induction 1 as [|e l He _ IH]; simpl; [reflexivity|].
  unfold Number.or at 2. rewrite He. exact IH.
Qed.

(** X22. The calculator screen shows no total before its button is
    pressed and, after, the plain sum of the amounts to two decimals: one
    amount that is not a number makes what it shows [NaN].  The list
    header counts such an amount, and a zero one, as 0: over amounts that
    are all of those kinds it shows [0.00]. *)
Theorem X22_the_calculator_sum_is_unguarded :
  forall (l : list Earning) (st : ShowTotalButton.State),
    ShowTotalButton.display toString ShowTotalButton.init = None /\
    ShowTotalButton.display toString (ShowTotalButton.calculateTotal l st) =
      Some (Number.toFixed toString (sum_amounts l) 2) /\
    ((exists e, e ∈ l /\ Number.isNaN (amount e) = true) ->
     ShowTotalButton.display toString (ShowTotalButton.calculateTotal l st) = Some "NaN") /\
    (Forall (fun e => Number.truthy (amount e) = false) l ->
     total l = 0%float /\ totalText toString l = "0.00").
Proof.
  intros l st. split; [reflexivity|]. split; [reflexivity|]. split.
  - intros H.
    change (Some (Number.toFixed toString (sum_amounts l) 2) = Some "NaN").
    f_equal. unfold Number.toFixed, sum_amounts.
    by rewrite (isNaN_nan _ (sum_from_nan l 0%float (or_intror H))).
  - intros H. unfold totalText, total. rewrite (total_from_falsy l H).
    split; reflexivity.
Qed.

End Totals.

Lemma X22_witness :
  ShowTotalButton.display DecimalReader.toString
    (ShowTotalButton.calculateTotal [mkEarning "1" nan "2024-01-05" ""]
       ShowTotalButton.init) = Some "NaN" /\
  total [mkEarning "1" nan "2024-01-05" ""] = 0%float /\
  totalText DecimalReader.toString [mkEarning "1" nan "2024-01-05" ""] = "0.00".
Proof.
  pose proof (X22_the_calculator_sum_is_unguarded DecimalReader.toString
                [mkEarning "1" nan "2024-01-05" ""] ShowTotalButton.init)
    as (_ & _ & Hnan & Hzero).
  split.
  - apply Hnan. exists (mkEarning "1" nan "2024-01-05" "").
    split; [apply list_elem_of_here|reflexivity].
  - apply Hzero. repeat constructor.
Defined.

(** ** The two directions of a sort key *)

Section Directions.
Variable localeCompare : string -> string -> float.
Hypothesis collation : ConsistentComparator localeCompare.

Lemma StronglySorted_reverse {A : Type} (R : A -> A -> Prop) (l : list A) :
  StronglySorted R l -> StronglySorted (fun a b => R b a) (reverse l).
Proof.
  induction 1 as [|x l Hl IH Hx]; [constructor|].
  rewrite reverse_cons. apply StronglySorted_app_2; [|exact IH|repeat constructor].
  intros a b Ha Hb. apply list_elem_of_singleton in Hb as ->.
  rewrite Forall_forall in Hx. simpl. apply Hx. rewrite <- elem_of_reverse. exact Ha.
Qed.

Lemma ordered_desc (by_ : SortBy) (a b : Earning) :
  ordered localeCompare by_ desc a b <-> ordered localeCompare by_ asc b a.
Proof. by destruct by_. Qed.

Lemma reverse_short {A : Type} (l : list A) : (length l <= 1)%nat -> reverse l = l.
Proof. destruct l as [|x [|y l]]; simpl; intros H; try reflexivity. lia. Qed.

Lemma same_key_class (by_ : SortBy) (x a b : Earning) :
  same_key localeCompare by_ x a -> same_key localeCompare by_ x b ->
  same_key localeCompare by_ a b.
Proof.
  rewrite <- !(cmp_eq_same_key localeCompare collation by_ asc).
  pose proof (comparefn_consistent localeCompare collation by_ asc) as Hc.
  intros Ha Hb.
  pose proof (cmp_eq_le _ _ _ Ha) as Hxa. pose proof (cmp_eq_le _ _ _ Hb) as Hxb.
  pose proof (cmp_eq_le _ _ _ (cmp_eq_sym _ Hc _ _ Ha)) as Hax.
  pose proof (cmp_eq_le _ _ _ (cmp_eq_sym _ Hc _ _ Hb)) as Hbx.
  apply (cmp_le_antisym _ Hc); eapply (cmp_le_trans _ Hc); eassumption.
Qed.

(** Without ties every class of equal keys has one record at most. *)
Lemma no_ties_class (by_ : SortBy) (l : list Earning) :
  (forall i j a b, l !! i = Some a -> l !! j = Some b ->
                   same_key localeCompare by_ a b -> i = j) ->
  forall x, (length (filter (same_key localeCompare by_ x) l) <= 1)%nat.
Proof.
  induction l as [|a l IH]; intros Hties x; [simpl; lia|].
  assert (forall y, (length (filter (same_key localeCompare by_ y) l) <= 1)%nat) as IH'.
  { apply IH. intros i j p q Hi Hj Hk.
    assert (S i = S j) as E by (apply (Hties (S i) (S j) p q); assumption).
    by injection E. }
  rewrite filter_cons. destruct (decide (same_key localeCompare by_ x a)) as [Ha|Ha];
    [|apply IH'].
  assert (filter (same_key localeCompare by_ x) l = []) as ->; [|simpl; lia].
  apply filter_none. intros b Hb Hxb.
  apply list_elem_of_lookup in Hb as [j Hj].
  assert (0%nat = S j) as E; [|discriminate].
  apply (Hties 0%nat (S j) a b); [reflexivity|exact Hj|].
  by apply (same_key_class by_ x).
Qed.

(** X23. Records that compare equal on the sort key stand in the order of
    the ledger in both directions: the descending view is not the
    ascending one turned round.  It is when no two records of the ledger
    compare equal on the key. *)
Theorem X23_descending_is_ascending_reversed_without_ties :
  forall (l : list Earning) (by_ : SortBy),
    (forall x, filter (same_key localeCompare by_ x) (sorted_of localeCompare l by_ desc) =
               filter (same_key localeCompare by_ x) (sorted_of localeCompare l by_ asc)) /\
    ((forall i j a b, l !! i = Some a -> l !! j = Some b ->
                      same_key localeCompare by_ a b -> i = j) ->
     sorted_of localeCompare l by_ desc = reverse (sorted_of localeCompare l by_ asc)).
Proof.
  intros l by_. split.
  - intros x. by rewrite !sorted_of_stable.
  - intros Hties. symmetry. apply sorted_of_unique; [exact collation| |].
    + eapply StronglySorted_weaken;
        [|apply StronglySorted_reverse, (sorted_of_ordered localeCompare collation l by_ asc)].
      intros a b H. by apply ordered_desc.
    + intros x. rewrite filter_reverse, sorted_of_stable by exact collation.
      apply reverse_short, no_ties_class, Hties.
Qed.

End Directions.

Lemma X23_witness :
  sorted_of DecimalReader.localeCompare (earnings (app Demo.two_entries)) by_amount desc =
  reverse (sorted_of DecimalReader.localeCompare (earnings (app Demo.two_entries))
             by_amount asc).
Proof.
  refine (proj2 (X23_descending_is_ascending_reversed_without_ties
                   DecimalReader.localeCompare codeunit_collation
                   (earnings (app Demo.two_entries)) by_amount) _).
  intros i j a b Hi Hj Hk.
  destruct i as [|[|i]], j as [|[|j]]; vm_compute in Hi, Hj; try discriminate;
    try reflexivity; injection Hi as <-; injection Hj as <-;
    vm_compute in Hk; discriminate.
Defined.
